(** * Pareto efficiency of fractional allocations

    A shallow embedding of [question3.py]: the two entry points
    [is_pareto_efficient] and [check_and_improve_pareto_effiecient], the
    exchange graph they build, and the adjustment loop that moves shares
    around a negative cycle.

    Numbers.  Every Python [int] or finite [float] is a rational, so the
    matrices hold [Q].  Sums, products and quotients are the exact ones;
    rounding of binary64, infinities and NaN are not modelled.  The only
    irrational operation of the program is [math.log], and the program only
    ever compares logarithms and hands them to the graph library, which adds
    them and tests the sign of the sum.  A logarithm is therefore kept as
    [Ln q], standing for the real number [ln q]; [denote] gives its value
    in [R].

    Objects.  [allocations] is the one list the program writes.  Its rows are
    taken to be distinct lists, and distinct from [valuations], as in a
    matrix written out row by row.

    Library.  [networkx] is not part of the repository.  Its two functions
    are parameters of the entry points, and what is assumed of them is
    stated where it is used. *)

From Stdlib Require Import QArith Qreals Reals Psatz Lia List Sorted.
From stdpp Require Import base option list gmap strings.
Import ListNotations.
Local Open Scope Q_scope.

(** ** Python values and exceptions *)

Inductive exn : Set :=
| IndexError
| KeyError
| ZeroDivisionError
| ValueError
| NetworkXNoCycle
| NetworkXError.

Inductive result (X : Type) : Type :=
| Ok (x : X)
| Raise (e : exn).
Arguments Ok {X} x.
Arguments Raise {X} e.

#[global] Instance result_ret : MRet result := @Ok.
#[global] Instance result_bind : MBind result :=
  fun X Y k r => match r with Ok x => k x | Raise e => Raise e end.

Abbreviation matrix := (list (list Q)).

(** [l[i]] for an index that is never negative. *)
Definition getitem {X : Type} (l : list X) (i : nat) : result X :=
  match l !! i with
  | Some x => Ok x
  | None => Raise IndexError
  end.

(** [m[i][k]] *)
Definition getitem2 (m : matrix) (i k : nat) : result Q :=
  row ← getitem m i; getitem row k.

(** [a / b] *)
Definition truediv (a b : Q) : result Q :=
  if Qeq_bool b 0 then Raise ZeroDivisionError else Ok (a / b).

(** The real number [ln q], kept by its argument. *)
Inductive lnval : Set := Ln (q : Q).

Definition arg (w : lnval) : Q := let 'Ln q := w in q.


(** [math.log x] *)
Definition math_log (x : Q) : result lnval :=
  if Qle_bool x 0 then Raise ValueError else Ok (Ln x).

(** [a < b] on logarithms: [ln] is strictly increasing. *)
Definition ln_ltb (a b : lnval) : bool := negb (Qle_bool (arg b) (arg a)).

(** [a + b] on logarithms: [ln x + ln y = ln (x * y)]. *)
Definition ln_add (a b : lnval) : lnval := Ln (arg a * arg b).

Definition ln_zero : lnval := Ln 1.

(** [a < 0] on logarithms. *)
Definition ln_negb (a : lnval) : bool := ln_ltb a ln_zero.

(** [x != 0] *)
Definition nonzero (x : Q) : bool := negb (Qeq_bool x 0).

(** ** Loops and builtins *)

Fixpoint mapM_result {X Y : Type} (f : X -> result Y) (l : list X)
  : result (list Y) :=
  match l with
  | [] => Ok []
  | x :: l' => y ← f x; ys ← mapM_result f l'; Ok (y :: ys)
  end.

(** [[x for x in l if p x]] *)
Fixpoint filterM_result {X : Type} (p : X -> result bool) (l : list X)
  : result (list X) :=
  match l with
  | [] => Ok []
  | x :: l' =>
      b ← p x; xs ← filterM_result p l'; Ok (if (b : bool) then x :: xs else xs)
  end.

Fixpoint foldM_result {X S : Type} (body : X -> S -> result S) (l : list X)
  (s : S) : result S :=
  match l with
  | [] => Ok s
  | x :: l' => s' ← body x s; foldM_result body l' s'
  end.

(** [for i in range(n): s = body i s] *)
Definition for_range {S : Type} (n : nat) (body : nat -> S -> result S)
  (s : S) : result S :=
  foldM_result body (seq 0 n) s.

(** [min(l)]: the first element is the candidate, a later one replaces it
    only when strictly smaller. *)
Definition py_min {X : Type} (ltb : X -> X -> bool) (l : list X) : result X :=
  match l with
  | [] => Raise ValueError
  | x :: l' => Ok (fold_left (fun cur y => if ltb y cur then y else cur) l' x)
  end.

(** [min(l, key=key)]: the key of every element is computed once, in order. *)
Definition py_min_key {X K : Type} (ltb : K -> K -> bool)
  (key : X -> result K) (l : list X) : result X :=
  match l with
  | [] => Raise ValueError
  | x :: l' =>
      kx ← key x;
      best ← foldM_result
        (fun y '(cur, kcur) =>
           ky ← key y; Ok (if ltb ky kcur then (y, ky) else (cur, kcur)))
        l' (x, kx);
      Ok best.1
  end.

(** ** The graph library's data

    A [DiGraph] keeps its weighted edges in insertion order; adding an edge
    that is already there replaces its weight in place, as the adjacency
    dictionaries of the library do. *)

Definition edge : Set := nat * nat * lnval.

Definition DiGraph : Set := list edge.

Fixpoint add_edge (G : DiGraph) (u v : nat) (w : lnval) : DiGraph :=
  match G with
  | [] => [(u, v, w)]
  | (u', v', w') :: G' =>
      if ((u =? u')%nat && (v =? v')%nat)%bool then (u, v, w) :: G'
      else (u', v', w') :: add_edge G' u v w
  end.

Definition add_weighted_edges_from (G : DiGraph) (edges : list edge) : DiGraph :=
  fold_left (fun G '(u, v, w) => add_edge G u v w) edges G.

(** [G[u][v]['weight']] *)
Fixpoint edge_weight (G : DiGraph) (u v : nat) : option lnval :=
  match G with
  | [] => None
  | (u', v', w) :: G' =>
      if ((u =? u')%nat && (v =? v')%nat)%bool then Some w
      else edge_weight G' u v
  end.

(** ** Building the exchange graph *)

(** [[k for k in range(num_items) if allocations[i][k] != 0]] *)
Definition held_items (allocations : matrix) (num_items i : nat)
  : result (list nat) :=
  filterM_result (fun k => a ← getitem2 allocations i k; Ok (nonzero a))
    (seq 0 num_items).

(** [math.log(valuations[i][k] / valuations[j][k])] *)
Definition log_ratio (valuations : matrix) (i j k : nat) : result lnval :=
  vik ← getitem2 valuations i k;
  vjk ← getitem2 valuations j k;
  q ← truediv vik vjk;
  math_log q.

(** ** [is_pareto_efficient] (lines 22-41) *)

(** Lines 22-34: the weighted edges. *)
Definition build_edges (valuations allocations : matrix) : result (list edge) :=
  let edges : list edge := [] in
  let num_players := length valuations in
  row0 ← getitem valuations 0;
  let num_items := length row0 in
  for_range num_players (fun i edges =>
    for_range num_players (fun j edges =>
      if negb (i =? j)%nat then
        indices ← held_items allocations num_items i;
        match indices with
        | [] => Ok edges
        | _ :: _ =>
            logs ← mapM_result (log_ratio valuations i j) indices;
            min_ratio_log ← py_min ln_ltb logs;
            Ok (edges ++ [(i, j, min_ratio_log)])
        end
      else Ok edges) edges) edges.

Definition is_pareto_efficient
  (negative_edge_cycle : DiGraph -> bool)
  (valuations allocations : matrix) : result bool :=
  edges ← build_edges valuations allocations;
  let G := add_weighted_edges_from [] edges in
  Ok (negb (negative_edge_cycle G)).

(** ** [check_and_improve_pareto_effiecient] (lines 67-103)

    The function mutates the caller's [allocations] and returns either [True]
    or that same list.  A computation is a function from the current content
    of [allocations] to an outcome and the content afterwards; a mutation
    made before an exception stays. *)

Definition M (X : Type) : Type := matrix -> result X * matrix.

Definition ret_M {X : Type} (x : X) : M X := fun A => (Ok x, A).

Definition bind_M {X Y : Type} (m : M X) (k : X -> M Y) : M Y :=
  fun A =>
    match m A with
    | (Ok x, A') => k x A'
    | (Raise e, A') => (Raise e, A')
    end.

#[global] Instance M_ret : MRet M := @ret_M.
#[global] Instance M_bind : MBind M := fun X Y k m => bind_M m k.

(** A computation that does not touch [allocations]. *)
Definition lift {X : Type} (r : result X) : M X := fun A => (r, A).

(** Reading [allocations[i][k]] *)
Definition load (i k : nat) : M Q := fun A => (getitem2 A i k, A).

(** The store [allocations[i][k] = x] *)
Definition store (i k : nat) (x : Q) : M unit :=
  fun A =>
    match A !! i with
    | Some row =>
        if (k <? length row)%nat then (Ok tt, <[i := <[k := x]> row]> A)
        else (Raise IndexError, A)
    | None => (Raise IndexError, A)
    end.

Fixpoint foldM_M {X S : Type} (body : X -> S -> M S) (l : list X) (s : S)
  : M S :=
  match l with
  | [] => ret_M s
  | x :: l' => s' ← body x s; foldM_M body l' s'
  end.

(** What the function hands back: [True], or the list it was given. *)
Inductive retval : Set := RetTrue | RetAllocations.

(** [item_dict[(u, v)]] *)
Definition dict_get (item_dict : gmap (nat * nat) nat) (key : nat * nat)
  : result nat :=
  match item_dict !! key with
  | Some item => Ok item
  | None => Raise KeyError
  end.

(** Lines 73-82: the edges and the critical item of each. *)
Definition build_edges_items (valuations allocations : matrix)
  : result (list edge * gmap (nat * nat) nat) :=
  let edges : list edge := [] in
  let item_dict : gmap (nat * nat) nat := ∅ in
  let num_players := length valuations in
  row0 ← getitem valuations 0;
  let num_items := length row0 in
  for_range num_players (fun i st =>
    for_range num_players (fun j '(edges, item_dict) =>
      if negb (i =? j)%nat then
        indices ← held_items allocations num_items i;
        match indices with
        | [] => Ok (edges, item_dict)
        | _ :: _ =>
            logs ← mapM_result (log_ratio valuations i j) indices;
            min_ratio_log ← py_min ln_ltb logs;
            let edges := edges ++ [(i, j, min_ratio_log)] in
            item ← py_min_key ln_ltb (log_ratio valuations i j) indices;
            Ok (edges, <[(i, j) := item]> item_dict)
        end
      else Ok (edges, item_dict)) st) (edges, item_dict).

(** [epsilon * valuations[v][item] / valuations[u][item]] *)
Definition transfer (valuations : matrix) (epsilon : Q) (u v item : nat)
  : result Q :=
  vv ← getitem2 valuations v item;
  vu ← getitem2 valuations u item;
  truediv (epsilon * vv) vu.

(** Lines 96-101: one edge of the cycle. *)
Definition adjust_step (valuations : matrix)
  (item_dict : gmap (nat * nat) nat) (cycle : list nat) (i : nat)
  (epsilon : Q) : M Q :=
  u ← lift (getitem cycle i);
  v ← lift (getitem cycle (i + 1));
  item ← lift (dict_get item_dict (u, v));
  old ← load v item;
  d ← lift (transfer valuations epsilon u v item);
  _ ← store v item (old + d);
  old ← load u item;
  d ← lift (transfer valuations epsilon u v item);
  _ ← store u item (old - d);
  vu ← lift (getitem2 valuations u item);
  vv ← lift (getitem2 valuations v item);
  r ← lift (truediv vu vv);
  ret_M (epsilon * r).

Definition check_and_improve_pareto_effiecient
  (find_negative_cycle : DiGraph -> nat -> result (list nat))
  (valuations : matrix) : M retval :=
  fun allocations =>
    match build_edges_items valuations allocations with
    | Raise e => (Raise e, allocations)
    | Ok (edges, item_dict) =>
        let G := add_weighted_edges_from [] edges in
        match (e0 ← getitem edges 0; find_negative_cycle G e0.1.1) with
        | Raise NetworkXNoCycle => (Ok RetTrue, allocations)
        | Raise e => (Raise e, allocations)
        | Ok cycle =>
            let epsilon := 1 # 1000 in
            (_ ← foldM_M (adjust_step valuations item_dict cycle)
                          (seq 0 (length cycle - 1)) epsilon;
             ret_M RetAllocations) allocations
        end
    end.

(** ** Reading a matrix outside the program

    [entry m i k] is [m[i][k]] where it exists; [num_players] and
    [num_items] are the program's [len(valuations)] and
    [len(valuations[0])]. *)

Definition entry (m : matrix) (i k : nat) : Q :=
  default 0 (m !! i ≫= (fun row => row !! k)).

Definition num_players (V : matrix) : nat := length V.

Definition num_items (V : matrix) : nat := length (default [] (V !! 0%nat)).

(** ** What one pass of the inner loop body contributes

    The two loop bodies, read as functions of the pair [(i, j)]: the weight
    alone (lines 29-34), and the weight with the critical item (lines 75-82).
    They are proof devices; the loops above are what is verified. *)

Definition pair_weight (V A : matrix) (n_items i j : nat)
  : result (option lnval) :=
  if negb (i =? j)%nat then
    indices ← held_items A n_items i;
    match indices with
    | [] => Ok None
    | _ :: _ =>
        logs ← mapM_result (log_ratio V i j) indices;
        w ← py_min ln_ltb logs;
        Ok (Some w)
    end
  else Ok None.

Definition pair_edge (V A : matrix) (n_items i j : nat)
  : result (option (lnval * nat)) :=
  if negb (i =? j)%nat then
    indices ← held_items A n_items i;
    match indices with
    | [] => Ok None
    | _ :: _ =>
        logs ← mapM_result (log_ratio V i j) indices;
        w ← py_min ln_ltb logs;
        item ← py_min_key ln_ltb (log_ratio V i j) indices;
        Ok (Some (w, item))
    end
  else Ok None.

(** The state of the loops of lines 73-82 once the pairs in [done] have been
    passed. *)
Definition build_inv (V A : matrix) (done : nat -> nat -> Prop)
  (st : list edge * gmap (nat * nat) nat) : Prop :=
  (forall i j w,
      (i, j, w) ∈ st.1 <->
      done i j /\ exists item, pair_edge V A (num_items V) i j = Ok (Some (w, item))) /\
  (forall i j item,
      st.2 !! (i, j) = Some item <->
      done i j /\ exists w, pair_edge V A (num_items V) i j = Ok (Some (w, item))) /\
  NoDup (st.1.*1).

(** ** Walks and negative cycles of a graph *)

(** The sum of the weights along [c], when every step is an edge. *)
Fixpoint walk_weight (G : DiGraph) (c : list nat) : option lnval :=
  match c with
  | [] => Some ln_zero
  | u :: c' =>
      match c' with
      | [] => Some ln_zero
      | v :: _ =>
          w ← edge_weight G u v; s ← walk_weight G c'; Some (ln_add w s)
      end
  end.

(** [c] runs [n0, n1, ..., nm] with [nm = n0] and at least one step. *)
Definition closed (c : list nat) : Prop :=
  exists u mid, c = u :: mid ++ [u].

Definition closedb (c : list nat) : bool :=
  match c with
  | u :: (_ :: _) as t => bool_decide (last t = Some u)
  | _ => false
  end.

Definition negative_cycle (G : DiGraph) (c : list nat) : Prop :=
  closed c /\ exists w, walk_weight G c = Some w /\ ln_negb w = true.

Definition is_negative_cycle (G : DiGraph) (c : list nat) : bool :=
  closedb c &&
  match walk_weight G c with
  | Some w => ln_negb w
  | None => false
  end.

(** No node is passed twice, the closing one apart. *)
Definition simple (c : list nat) : Prop := NoDup (tail c).

(** Some walk of [G] leads from [s] to [t]. *)
Definition reachable (G : DiGraph) (s t : nat) : Prop :=
  exists p, head p = Some s /\ last p = Some t /\ is_Some (walk_weight G p).

Definition positive_weights (G : DiGraph) : Prop :=
  Forall (fun e : edge => 0 < arg e.2) G.

(** ** The exchange graph as the specification words it

    Nodes are the players; [(i, j)] is an edge when [i] and [j] are distinct
    and [i] holds a nonzero share of some item; its weight is the least
    [ln (V[i][k] / V[j][k])] over the items [k] that [i] holds. *)






(** ** Input contract *)

Definition rectangular (m : matrix) (rows cols : nat) : Prop :=
  length m = rows /\ Forall (fun row => length row = cols) m.

Definition same_shape (V A : matrix) : Prop :=
  (0 < num_players V)%nat /\
  rectangular V (num_players V) (num_items V) /\
  rectangular A (num_players V) (num_items V).

Definition valid_input (V A : matrix) : Prop :=
  same_shape V A /\
  Forall (Forall (fun x => 0 < x)) V /\
  Forall (Forall (fun x => 0 <= x <= 1)) A.

(** Two allocation matrices of one shape with the same zero entries. *)
Definition same_pattern (A1 A2 : matrix) : Prop :=
  Forall2 (Forall2 (fun a b : Q => a == 0 <-> b == 0)) A1 A2.





(** ** Utilities and column totals *)

(** [sum(allocations[u][k] * valuations[u][k] for k)] *)
Definition utility (V A : matrix) (u : nat) : Q :=
  fold_right Qplus 0
    (map (fun k => entry A u k * entry V u k) (seq 0 (num_items V))).

(** [sum(allocations[i][k] for i)] *)
Definition colsum (A : matrix) (k : nat) : Q :=
  fold_right Qplus 0 (map (fun row => default 0 (row !! k)) A).

(** The positions the adjustment loop writes: both ends of every step of
    the cycle, at the step's critical item. *)
Definition touched (item_dict : gmap (nat * nat) nat) (cycle : list nat)
  (i k : nat) : Prop :=
  exists t u v,
    cycle !! t = Some u /\ cycle !! (t + 1)%nat = Some v /\
    item_dict !! (u, v) = Some k /\ (i = u \/ i = v).

(** ** A reference detector

    The library finds negative cycles by Bellman-Ford relaxation.  What the
    program relies on is only what is found, so an exhaustive search over
    the simple cycles of the graph stands for it here: it is the instance at
    which the assumptions made of the library are discharged.  As the
    library documents, [find_negative_cycle] raises [NetworkXError] when
    there is no negative cycle. *)

Module Nx.

(** The nodes, in the order in which the edges brought them in. *)
Definition nodes (G : DiGraph) : list nat :=
  reverse (remove_dups (reverse (flat_map (fun e : edge => [e.1.1; e.1.2]) G))).

(** All lists of [k] nodes, in lexicographic order. *)
Fixpoint lists_of_length (ns : list nat) (k : nat) : list (list nat) :=
  match k with
  | O => [[]]
  | S k' => flat_map (fun x => map (cons x) (lists_of_length ns k')) ns
  end.

(** A node sequence, closed by repeating its first node. *)
Definition close (s : list nat) : list nat :=
  match s with
  | [] => []
  | u :: _ => s ++ [u]
  end.

Definition candidates (G : DiGraph) : list (list nat) :=
  let ns := nodes G in
  flat_map (fun k => map close (lists_of_length ns (S k)))
    (seq 0 (length ns)).

Definition is_simple_negative_cycle (G : DiGraph) (c : list nat) : bool :=
  is_negative_cycle G c && bool_decide (NoDup (tail c)).

Definition simple_negative_cycles (G : DiGraph) : list (list nat) :=
  List.filter (is_simple_negative_cycle G) (candidates G).

Definition negative_edge_cycle (G : DiGraph) : bool :=
  match simple_negative_cycles G with
  | [] => false
  | _ :: _ => true
  end.

Definition find_negative_cycle (G : DiGraph) (source : nat)
  : result (list nat) :=
  match simple_negative_cycles G with
  | c :: _ => Ok c
  | [] => Raise NetworkXError
  end.

End Nx.

(** ** The Fibonacci demonstration ([main.py])

    Python integers are [Z].  An object is known by the number it got when
    it was created.  The interpreter bounds the depth of nested calls; the
    recursive algorithm is modelled with that bound as a parameter, counted
    in nested calls of [compute], and [RecursionError] is what exceeding it
    gives. *)

Module Fibonacci.

Local Open Scope Z_scope.

(** [range(a, b)] *)
Definition range (a b : Z) : list Z :=
  map (fun i => a + Z.of_nat i) (seq 0 (Z.to_nat (b - a))).

(** [l[-k]] for [k >= 1] *)
Definition getitem_back (l : list Z) (k : nat) : result Z :=
  if ((1 <=? k)%nat && (k <=? length l)%nat)%bool
  then getitem l (length l - k)
  else Raise IndexError.

(** [IterativeFibonacci.compute] (lines 130-148) *)
Definition iterative_compute (number : Z) : result (list Z) :=
  if number =? 0 then Ok [0]
  else if number =? 1 then Ok [0; 1]
  else
    let fib_seq := [0; 1] in
    foldM_result
      (fun (i : Z) fib_seq =>
         a ← getitem_back fib_seq 1;
         b ← getitem_back fib_seq 2;
         Ok (fib_seq ++ [a + b]))
      (range 2 (number + 1)) fib_seq.

(** The outcome of a call that may exhaust the depth of nested calls. *)
Inductive outcome (X : Type) : Type :=
| Done (x : X)
| RecursionError.
Arguments Done {X} x.
Arguments RecursionError {X}.

(** [RecursiveFibonacci.compute] under [@memoization] (lines 25-42 and
    151-164).  [cache] is the dictionary of the decorator, keyed by the
    arguments [(self, number)]; it outlives the call, also when the call
    fails.  A call first looks its arguments up; on a miss it runs the body,
    whose recursive calls go through the decorator again, and stores the
    result. *)
Fixpoint recursive_compute (depth : nat) (self : nat) (number : Z)
  (cache : gmap (nat * Z) Z) : outcome Z * gmap (nat * Z) Z :=
  match depth with
  | O => (RecursionError, cache)
  | S depth' =>
      match cache !! (self, number) with
      | Some result => (Done result, cache)
      | None =>
          let '(result, cache) :=
            if number <? 2 then (Done number, cache)
            else
              match recursive_compute depth' self (number - 1) cache with
              | (Done a, cache) =>
                  match recursive_compute depth' self (number - 2) cache with
                  | (Done b, cache) => (Done (a + b), cache)
                  | (RecursionError, cache) => (RecursionError, cache)
                  end
              | (RecursionError, cache) => (RecursionError, cache)
              end in
          match result with
          | Done result => (Done result, <[(self, number) := result]> cache)
          | RecursionError => (RecursionError, cache)
          end
      end
  end.

(** [[fib_algo.compute(i) for i in range(number + 1)]] of [main]
    (lines 293 and 306), with the recursive algorithm. *)
Fixpoint recursive_each (depth : nat) (self : nat) (numbers : list Z)
  (cache : gmap (nat * Z) Z) : outcome (list Z) * gmap (nat * Z) Z :=
  match numbers with
  | [] => (Done [], cache)
  | i :: numbers' =>
      match recursive_compute depth self i cache with
      | (Done r, cache) =>
          match recursive_each depth self numbers' cache with
          | (Done rs, cache) => (Done (r :: rs), cache)
          | (RecursionError, cache) => (RecursionError, cache)
          end
      | (RecursionError, cache) => (RecursionError, cache)
      end
  end.

Definition recursive_sequence (depth : nat) (self : nat) (number : Z)
  (cache : gmap (nat * Z) Z) : outcome (list Z) * gmap (nat * Z) Z :=
  recursive_each depth self (range 0 (number + 1)) cache.

(** The two algorithm classes, and an instance with its identity. *)
Inductive algorithm : Set := IterativeFibonacci | RecursiveFibonacci.

Definition object : Set := (algorithm * nat)%type.

(** A [FibonacciFlyweight] and the number the next object will get. *)
Record flyweight : Type :=
  { shared_data : gmap string object; next_object : nat }.

(** [FibonacciFlyweight.get_fibonacci] (lines 173-188) *)
Definition get_fibonacci (algorithm_type : string) (self : flyweight)
  : result object * flyweight :=
  let self :=
    match shared_data self !! algorithm_type with
    | Some _ => self
    | None =>
        if String.eqb algorithm_type "iterative" then
          {| shared_data :=
               <[algorithm_type := (IterativeFibonacci, next_object self)]>
                 (shared_data self);
             next_object := S (next_object self) |}
        else if String.eqb algorithm_type "recursive" then
          {| shared_data :=
               <[algorithm_type := (RecursiveFibonacci, next_object self)]>
                 (shared_data self);
             next_object := S (next_object self) |}
        else self
    end in
  match shared_data self !! algorithm_type with
  | Some o => (Ok o, self)
  | None => (Raise KeyError, self)
  end.

(** The Fibonacci numbers, and the value the recursive algorithm has for
    any integer: the number itself below 2. *)
Fixpoint fib (n : nat) : Z :=
  match n with
  | O => 0
  | S n' =>
      match n' with
      | O => 1
      | S n'' => fib n' + fib n''
      end
  end.

Definition fib_int (number : Z) : Z :=
  if number <? 2 then number else fib (Z.to_nat number).

Definition cache_sound (cache : gmap (nat * Z) Z) : Prop :=
  forall self number result,
    cache !! (self, number) = Some result -> result = fib_int number.

End Fibonacci.

(** ** Inputs of the doctests and of the examples below *)

Definition doc_V : matrix := [[10; 20; 30; 40]; [40; 30; 20; 10]].
Definition doc_A : matrix := [[1; 7 # 10; 1; 0]; [0; 3 # 10; 0; 0]].

Definition doc_V3 : matrix :=
  [[10; 20; 30; 40]; [40; 30; 20; 10]; [40; 30; 20; 10]].
Definition doc_A3 : matrix := [[1; 1; 0; 0]; [0; 0; 0; 1]; [0; 0; 1; 0]].

(** What lines 73-82 build on the first doctest. *)
Definition doc_edges : list edge := Eval vm_compute in
    match build_edges_items doc_V doc_A with
    | Ok (edges, _) => edges
    | Raise _ => []
    end.

Definition doc_items : gmap (nat * nat) nat := Eval vm_compute in
    match build_edges_items doc_V doc_A with
    | Ok (_, item_dict) => item_dict
    | Raise _ => ∅
    end.

(** The allocations after the first doctest, the reference detector in the
    library's place. *)
Definition doc_A' : matrix := Eval vm_compute in
    (check_and_improve_pareto_effiecient Nx.find_negative_cycle doc_V doc_A).2.

(** An allocation with the zeros of [doc_A] and other shares. *)
Definition doc_A_other : matrix := [[1; 1 # 2; 1; 0]; [0; 1 # 2; 0; 0]].

(** Each player holds the item the other values two thousand times more. *)
Definition swap_V : matrix := [[1; 2000]; [2000; 1]].
Definition swap_A : matrix := [[1; 0]; [0; 1]].

Definition swap_edges : list edge := Eval vm_compute in
    match build_edges_items swap_V swap_A with
    | Ok (edges, _) => edges
    | Raise _ => []
    end.

Definition swap_items : gmap (nat * nat) nat := Eval vm_compute in
    match build_edges_items swap_V swap_A with
    | Ok (_, item_dict) => item_dict
    | Raise _ => ∅
    end.

(** A single player holding everything. *)
Definition single_V : matrix := [[3; 5]].
Definition single_A : matrix := [[1; 1]].

(** Two players, nothing allocated. *)
Definition idle_V : matrix := [[1; 2]; [3; 4]].
Definition idle_A : matrix := [[0; 0]; [0; 0]].



(** The first doctest of [is_pareto_efficient] that answers [True]. *)
Definition fit_V : matrix := [[50; 1]; [1; 100]].
Definition fit_A : matrix := [[1; 0]; [0; 1]].


(** Two players with the same valuations. *)
Definition equal_V : matrix := [[1; 2]; [1; 2]].

Definition wide_A : matrix :=
  [[1; 7 # 10; 1; 0; 5]; [0; 3 # 10; 0; 0; 5]; [9; 9; 9; 9; 9]].


(** A flyweight that has created nothing yet. *)
Definition fresh_flyweight : Fibonacci.flyweight :=
  {| Fibonacci.shared_data := ∅; Fibonacci.next_object := 0 |}.

(** Entrywise equality of rational matrices. *)
Definition matrix_eqb (m1 m2 : matrix) : bool :=
  bool_decide (length m1 = length m2) &&
  forallb (fun '(r1, r2) =>
             bool_decide (length r1 = length r2) &&
             forallb (fun '(x, y) => Qeq_bool x y) (zip r1 r2))
          (zip m1 m2).

(** * Properties *)

(** ** The doctests, with the reference detector in the library's place *)

Example doctest_is_pareto_efficient_1 :
  is_pareto_efficient Nx.negative_edge_cycle [[50; 1]; [1; 100]] [[0; 1]; [1; 0]]
  = Ok false.
Proof. vm_compute. reflexivity. Qed.

Example doctest_is_pareto_efficient_2 :
  is_pareto_efficient Nx.negative_edge_cycle [[50; 1]; [1; 100]] [[1; 0]; [0; 1]]
  = Ok true.
Proof. vm_compute. reflexivity. Qed.

Example doctest_is_pareto_efficient_3 :
  is_pareto_efficient Nx.negative_edge_cycle doc_V [[1; 1; 1; 1]; [0; 0; 0; 0]]
  = Ok true.
Proof. vm_compute. reflexivity. Qed.

Example doctest_is_pareto_efficient_4 :
  is_pareto_efficient Nx.negative_edge_cycle doc_V
    [[0; 6 # 10; 1; 9 # 10]; [1; 4 # 10; 0; 1 # 10]]
  = Ok false.
Proof. vm_compute. reflexivity. Qed.

Example doctest_is_pareto_efficient_5 :
  is_pareto_efficient Nx.negative_edge_cycle doc_V doc_A = Ok false.
Proof. vm_compute. reflexivity. Qed.

Example doctest_check_and_improve_1 :
  exists A',
    check_and_improve_pareto_effiecient Nx.find_negative_cycle doc_V doc_A
    = (Ok RetAllocations, A') /\
    matrix_eqb A'
      [[996 # 1000; 4201 # 6000; 1; 0];
       [4 # 1000; 1799 # 6000; 0; 0]] = true.
Proof. eexists. split; vm_compute; reflexivity. Qed.

Example doctest_check_and_improve_2 :
  exists A',
    check_and_improve_pareto_effiecient Nx.find_negative_cycle doc_V3 doc_A3
    = (Ok RetAllocations, A') /\
    matrix_eqb A'
      [[996 # 1000; 1; 0; 1 # 1000];
       [4 # 1000; 0; 0; 999 # 1000];
       [0; 0; 1; 0]] = true.
Proof. eexists. split; vm_compute; reflexivity. Qed.

(** ** The exception monad and the loops *)

Lemma bind_Ok {X Y : Type} (r : result X) (k : X -> result Y) (y : Y) :
  r ≫= k = Ok y <-> exists x, r = Ok x /\ k x = Ok y.
Proof.
  destruct r as [x|e]; simpl; split.
  - intros H. exists x. auto.
  - intros (x' & [= ->] & H). exact H.
  - discriminate.
  - intros (x' & [=] & _).
Qed.

Lemma bind_Raise {X Y : Type} (r : result X) (k : X -> result Y) (e : exn) :
  r ≫= k = Raise e <->
  r = Raise e \/ exists x, r = Ok x /\ k x = Raise e.
Proof.
  destruct r as [x|e']; simpl; split.
  - intros H. right. exists x. auto.
  - intros [[=]|(x' & [= ->] & H)]. exact H.
  - intros [= ->]. left. reflexivity.
  - intros [[= ->]|(x' & [=] & _)]. reflexivity.
Qed.

Lemma getitem_Ok {X : Type} (l : list X) (i : nat) (x : X) :
  getitem l i = Ok x <-> l !! i = Some x.
Proof.
  unfold getitem. destruct (l !! i); split; intros [=]; subst; reflexivity.
Qed.

Lemma getitem_lt {X : Type} (l : list X) (i : nat) :
  (i < length l)%nat -> exists x, getitem l i = Ok x.
Proof.
  intros H. destruct (lookup_lt_is_Some_2 l i H) as [x Hx].
  exists x. apply getitem_Ok, Hx.
Qed.

Lemma getitem2_Ok (m : matrix) (i k : nat) (x : Q) :
  getitem2 m i k = Ok x <->
  exists row, m !! i = Some row /\ row !! k = Some x.
Proof.
  unfold getitem2. rewrite bind_Ok. split.
  - intros (row & H1 & H2). exists row.
    split; [apply getitem_Ok, H1 | apply getitem_Ok, H2].
  - intros (row & H1 & H2). exists row.
    split; [apply getitem_Ok, H1 | apply getitem_Ok, H2].
Qed.

Lemma getitem2_entry (m : matrix) (i k : nat) (x : Q) :
  getitem2 m i k = Ok x -> entry m i k = x.
Proof.
  rewrite getitem2_Ok. intros (row & H1 & H2).
  unfold entry. rewrite H1. simpl. rewrite H2. reflexivity.
Qed.

Lemma getitem2_rectangular (m : matrix) (rows cols i k : nat) :
  rectangular m rows cols -> (i < rows)%nat -> (k < cols)%nat ->
  getitem2 m i k = Ok (entry m i k).
Proof.
  intros [Hr Hc] Hi Hk.
  destruct (lookup_lt_is_Some_2 m i) as [row Hrow]; [lia|].
  assert (length row = cols) as Hlen.
  { rewrite Forall_forall in Hc. apply Hc.
    eapply list_elem_of_lookup_2, Hrow. }
  destruct (lookup_lt_is_Some_2 row k) as [x Hx]; [lia|].
  assert (getitem2 m i k = Ok x) as H by (apply getitem2_Ok; eauto).
  rewrite H. f_equal. symmetry. apply getitem2_entry, H.
Qed.

(** An invariant of a loop, indexed by the part of the range already done. *)
Lemma foldM_result_ind {X S : Type} (body : X -> S -> result S)
  (P : list X -> S -> Prop) (l : list X) (s0 s' : S) :
  P [] s0 ->
  (forall pre x post s s1,
      l = pre ++ x :: post -> P pre s -> body x s = Ok s1 ->
      P (pre ++ [x]) s1) ->
  foldM_result body l s0 = Ok s' ->
  P l s'.
Proof.
  intros H0 Hstep.
  assert (forall post pre s,
             l = pre ++ post -> P pre s ->
             foldM_result body post s = Ok s' -> P l s') as Haux.
  { induction post as [|x post IH]; intros pre s Hl Hp Hf; simpl in Hf.
    - injection Hf as <-. rewrite Hl, app_nil_r. exact Hp.
    - apply bind_Ok in Hf as (s1 & Hb & Hf).
      apply (IH (pre ++ [x]) s1).
      + rewrite <- app_assoc. exact Hl.
      + eapply Hstep; eauto.
      + exact Hf. }
  intros Hf. apply (Haux l [] s0); auto.
Qed.

(** Two loops whose bodies commute with a projection of the state. *)
Lemma foldM_result_proj {X S T : Type} (f : T -> S)
  (body : X -> S -> result S) (body' : X -> T -> result T) (l : list X) :
  (forall x t, In x l -> body x (f t) = (t' ← body' x t; Ok (f t'))) ->
  forall t,
    foldM_result body l (f t) = (t' ← foldM_result body' l t; Ok (f t')).
Proof.
  induction l as [|x l IH]; intros Hb t; simpl.
  - reflexivity.
  - rewrite Hb by (left; reflexivity).
    destruct (body' x t) as [t1|e]; simpl; [|reflexivity].
    apply IH. intros y t2 Hy. apply Hb. right. exact Hy.
Qed.

Lemma foldM_result_ext {X S : Type} (body body' : X -> S -> result S)
  (l : list X) (s : S) :
  (forall x s, In x l -> body x s = body' x s) ->
  foldM_result body l s = foldM_result body' l s.
Proof.
  revert s. induction l as [|x l IH]; intros s Hb; simpl.
  - reflexivity.
  - rewrite Hb by (left; reflexivity).
    destruct (body' x s) as [s1|e]; simpl; [|reflexivity].
    apply IH. intros y s2 Hy. apply Hb. right. exact Hy.
Qed.

Lemma foldM_result_total {X S : Type} (body : X -> S -> result S)
  (l : list X) (s : S) :
  (forall x s, In x l -> exists s', body x s = Ok s') ->
  exists s', foldM_result body l s = Ok s'.
Proof.
  revert s. induction l as [|x l IH]; intros s Hb; simpl.
  - eauto.
  - destruct (Hb x s) as [s1 H1]; [left; reflexivity|].
    rewrite H1. simpl. apply IH. intros y s2 Hy. apply Hb. right. exact Hy.
Qed.

Lemma mapM_result_Ok {X Y : Type} (f : X -> result Y) (l : list X)
  (ys : list Y) :
  mapM_result f l = Ok ys <-> Forall2 (fun x y => f x = Ok y) l ys.
Proof.
  revert ys. induction l as [|x l IH]; intros ys; simpl.
  - split.
    + intros [= <-]. constructor.
    + intros H. inversion H. reflexivity.
  - rewrite bind_Ok. split.
    + intros (y & Hy & H). apply bind_Ok in H as (ys' & Hys & [= <-]).
      constructor; [exact Hy | apply IH, Hys].
    + intros H. inversion H as [|x' y l' ys' Hy Hys]; subst.
      exists y. split; [exact Hy|]. apply bind_Ok. exists ys'.
      split; [apply IH, Hys | reflexivity].
Qed.

Lemma mapM_result_total {X Y : Type} (f : X -> result Y) (l : list X) :
  (forall x, In x l -> exists y, f x = Ok y) ->
  exists ys, mapM_result f l = Ok ys.
Proof.
  induction l as [|x l IH]; intros Hf; simpl.
  - eauto.
  - destruct (Hf x) as [y Hy]; [left; reflexivity|].
    destruct IH as [ys Hys]; [intros z Hz; apply Hf; right; exact Hz|].
    rewrite Hy, Hys. simpl. eauto.
Qed.

(** ** Logarithms by their arguments *)

Lemma ln_ltb_true (a b : lnval) : ln_ltb a b = true <-> arg a < arg b.
Proof.
  unfold ln_ltb. rewrite negb_true_iff, <- not_true_iff_false, Qle_bool_iff.
  split; [apply Qnot_le_lt | apply Qlt_not_le].
Qed.

Lemma ln_ltb_false (a b : lnval) : ln_ltb a b = false <-> arg b <= arg a.
Proof.
  unfold ln_ltb. rewrite negb_false_iff. apply Qle_bool_iff.
Qed.

Lemma ln_negb_true (w : lnval) : ln_negb w = true <-> arg w < 1.
Proof. unfold ln_negb. rewrite ln_ltb_true. reflexivity. Qed.

Lemma math_log_Ok (x : Q) (w : lnval) :
  math_log x = Ok w <-> 0 < x /\ w = Ln x.
Proof.
  unfold math_log. destruct (Qle_bool x 0) eqn:E.
  - apply Qle_bool_iff in E. split; [discriminate|]. intros [H _]. lra.
  - split.
    + intros [= <-]. split; [|reflexivity].
      apply Qnot_le_lt. intros H. apply Qle_bool_iff in H. congruence.
    + intros [_ ->]. reflexivity.
Qed.

Lemma truediv_Ok (a b q : Q) :
  truediv a b = Ok q <-> ~ b == 0 /\ q = a / b.
Proof.
  unfold truediv. destruct (Qeq_bool b 0) eqn:E.
  - apply Qeq_bool_iff in E. split; [discriminate|]. intros [H _]. tauto.
  - split.
    + intros [= <-]. split; [|reflexivity].
      intros H. apply Qeq_bool_iff in H. congruence.
    + intros [_ ->]. reflexivity.
Qed.

Lemma nonzero_true (x : Q) : nonzero x = true <-> ~ x == 0.
Proof.
  unfold nonzero. rewrite negb_true_iff, <- not_true_iff_false, Qeq_bool_iff.
  reflexivity.
Qed.

Lemma log_ratio_Ok (V : matrix) (i j k : nat) (w : lnval) :
  log_ratio V i j k = Ok w <->
  exists vik vjk,
    getitem2 V i k = Ok vik /\ getitem2 V j k = Ok vjk /\
    ~ vjk == 0 /\ 0 < vik / vjk /\ w = Ln (vik / vjk).
Proof.
  unfold log_ratio. rewrite bind_Ok. split.
  - intros (vik & H1 & H). apply bind_Ok in H as (vjk & H2 & H).
    apply bind_Ok in H as (q & H3 & H4).
    apply truediv_Ok in H3 as [H3 ->]. apply math_log_Ok in H4 as [H4 ->].
    exists vik, vjk. auto.
  - intros (vik & vjk & H1 & H2 & H3 & H4 & ->).
    exists vik. split; [exact H1|]. apply bind_Ok. exists vjk.
    split; [exact H2|]. apply bind_Ok. exists (vik / vjk).
    split; [apply truediv_Ok; auto | apply math_log_Ok; auto].
Qed.

Lemma log_ratio_positive (V : matrix) (i j k : nat) (w : lnval) :
  log_ratio V i j k = Ok w -> 0 < arg w.
Proof.
  rewrite log_ratio_Ok. intros (vik & vjk & _ & _ & _ & H & ->). exact H.
Qed.

(** ** [min] *)

Lemma py_min_fold (l : list lnval) (cur : lnval) :
  let r := fold_left (fun cur y => if ln_ltb y cur then y else cur) l cur in
  (r = cur \/ r ∈ l) /\ arg r <= arg cur /\
  forall w, w ∈ l -> arg r <= arg w.
Proof.
  revert cur. induction l as [|y l IH]; intros cur; simpl.
  - split; [left; reflexivity|]. split; [lra|].
    intros w Hw. inversion Hw.
  - destruct (ln_ltb y cur) eqn:E.
    + apply ln_ltb_true in E. destruct (IH y) as (H1 & H2 & H3).
      split; [|split].
      * right. destruct H1 as [->|H1]; [left | right; exact H1].
      * lra.
      * intros w Hw. apply elem_of_cons in Hw as [->|Hw]; [exact H2 | auto].
    + apply ln_ltb_false in E. destruct (IH cur) as (H1 & H2 & H3).
      split; [|split].
      * destruct H1 as [->|H1]; [left; reflexivity | right; right; exact H1].
      * exact H2.
      * intros w Hw. apply elem_of_cons in Hw as [->|Hw]; [lra | auto].
Qed.

Lemma py_min_spec (ks : list lnval) (w : lnval) :
  py_min ln_ltb ks = Ok w ->
  w ∈ ks /\ forall w', w' ∈ ks -> arg w <= arg w'.
Proof.
  destruct ks as [|k ks]; simpl; [discriminate|]. intros [= <-].
  destruct (py_min_fold ks k) as (H1 & H2 & H3). split.
  - destruct H1 as [->|H1]; [left | right; exact H1].
  - intros w' Hw'. apply elem_of_cons in Hw' as [->|Hw']; [exact H2 | auto].
Qed.

Lemma py_min_total {X : Type} (ltb : X -> X -> bool) (l : list X) :
  l <> [] -> exists x, py_min ltb l = Ok x.
Proof. destruct l; [congruence|]. simpl. eauto. Qed.

(** The two minimisations of lines 79 and 81 make the same comparisons: the
    key of the element the second picks is the value the first returns. *)
Lemma py_min_key_fold {X K : Type} (ltb : K -> K -> bool)
  (key : X -> result K) (l : list X) (ks : list K) (cur : X) (kcur : K) :
  mapM_result key l = Ok ks ->
  key cur = Ok kcur ->
  exists best,
    foldM_result
      (fun y '(cur, kcur) =>
         ky ← key y; Ok (if ltb ky kcur then (y, ky) else (cur, kcur)))
      l (cur, kcur) = Ok best /\
    best.2 = fold_left (fun cur y => if ltb y cur then y else cur) ks kcur /\
    key best.1 = Ok best.2.
Proof.
  revert ks cur kcur. induction l as [|y l IH]; intros ks cur kcur Hm Hc.
  - simpl in Hm. injection Hm as <-. exists (cur, kcur). simpl. auto.
  - simpl in Hm. apply bind_Ok in Hm as (ky & Hy & Hm).
    apply bind_Ok in Hm as (ks' & Hks & [= <-]).
    simpl. rewrite Hy. simpl.
    destruct (ltb ky kcur); [apply IH | apply IH]; auto.
Qed.

Lemma py_min_key_py_min {X K : Type} (ltb : K -> K -> bool)
  (key : X -> result K) (l : list X) (ks : list K) :
  mapM_result key l = Ok ks -> l <> [] ->
  exists x w,
    py_min_key ltb key l = Ok x /\ py_min ltb ks = Ok w /\ key x = Ok w.
Proof.
  destruct l as [|x l]; [congruence|]. intros Hm _.
  simpl in Hm. apply bind_Ok in Hm as (kx & Hx & Hm).
  apply bind_Ok in Hm as (ks' & Hks & [= <-]).
  destruct (py_min_key_fold ltb key l ks' x kx Hks Hx) as (best & H1 & H2 & H3).
  exists best.1, best.2. split; [|split].
  - simpl. rewrite Hx. simpl. rewrite H1. reflexivity.
  - simpl. rewrite H2. reflexivity.
  - exact H3.
Qed.

(** The element picked is the first that attains the least key. *)
Lemma py_min_key_first_fold {X : Type} (key : X -> result lnval)
  (l p1 p2 : list X) (cur : X) (kcur : lnval) (best : X * lnval) :
  key cur = Ok kcur ->
  (forall y, y ∈ p1 -> exists ky, key y = Ok ky /\ arg kcur < arg ky) ->
  (forall y, y ∈ p2 -> exists ky, key y = Ok ky /\ arg kcur <= arg ky) ->
  foldM_result
    (fun y '(cur, kcur) =>
       ky ← key y; Ok (if ln_ltb ky kcur then (y, ky) else (cur, kcur)))
    l (cur, kcur) = Ok best ->
  exists q1 q2,
    p1 ++ cur :: p2 ++ l = q1 ++ best.1 :: q2 /\
    key best.1 = Ok best.2 /\
    (forall y, y ∈ q1 -> exists ky, key y = Ok ky /\ arg best.2 < arg ky) /\
    (forall y, y ∈ q2 -> exists ky, key y = Ok ky /\ arg best.2 <= arg ky).
Proof.
  revert p1 p2 cur kcur. induction l as [|y l IH]; intros p1 p2 cur kcur Hc H1 H2 Hf.
  - simpl in Hf. injection Hf as <-. exists p1, p2. simpl.
    rewrite app_nil_r. auto.
  - simpl in Hf. apply bind_Ok in Hf as (st & Hst & Hf).
    apply bind_Ok in Hst as (ky & Hy & [= <-]).
    destruct (ln_ltb ky kcur) eqn:E.
    + apply ln_ltb_true in E.
      destruct (IH (p1 ++ cur :: p2) [] y ky Hy) with (3 := Hf)
        as (q1 & q2 & Heq & Hk & Hq1 & Hq2).
      * intros z Hz. apply elem_of_app in Hz as [Hz|Hz].
        -- destruct (H1 z Hz) as (kz & Hkz & Hlt). exists kz. split; [auto|lra].
        -- apply elem_of_cons in Hz as [->|Hz].
           ++ exists kcur. auto.
           ++ destruct (H2 z Hz) as (kz & Hkz & Hle). exists kz.
              split; [auto|lra].
      * intros z Hz. inversion Hz.
      * exists q1, q2. split; [|auto].
        rewrite <- Heq. simpl. rewrite <- !app_assoc. reflexivity.
    + apply ln_ltb_false in E.
      destruct (IH p1 (p2 ++ [y]) cur kcur Hc H1) with (2 := Hf)
        as (q1 & q2 & Heq & Hk & Hq1 & Hq2).
      * intros z Hz. apply elem_of_app in Hz as [Hz|Hz]; [auto|].
        apply list_elem_of_singleton in Hz as ->. exists ky. auto.
      * exists q1, q2. split; [|auto].
        rewrite <- Heq. rewrite <- !app_assoc. reflexivity.
Qed.

Lemma py_min_key_first {X : Type} (key : X -> result lnval) (l : list X)
  (x : X) :
  py_min_key ln_ltb key l = Ok x ->
  exists q1 q2 kx,
    l = q1 ++ x :: q2 /\ key x = Ok kx /\
    (forall y, y ∈ q1 -> exists ky, key y = Ok ky /\ arg kx < arg ky) /\
    (forall y, y ∈ q2 -> exists ky, key y = Ok ky /\ arg kx <= arg ky).
Proof.
  destruct l as [|x0 l]; simpl; [discriminate|]. intros H.
  apply bind_Ok in H as (k0 & H0 & H).
  apply bind_Ok in H as (best & Hf & [= <-]).
  destruct (py_min_key_first_fold key l [] [] x0 k0 best H0)
    as (q1 & q2 & Heq & Hk & Hq1 & Hq2); auto.
  - intros y Hy. inversion Hy.
  - intros y Hy. inversion Hy.
  - exists q1, q2, best.2. auto.
Qed.

(** ** The items a player holds *)

Lemma filterM_seq_Ok (p : nat -> result bool) (s n : nat) (xs : list nat) :
  filterM_result p (seq s n) = Ok xs ->
  StronglySorted lt xs /\
  (forall k, (s <= k < s + n)%nat -> exists b, p k = Ok b) /\
  (forall k, k ∈ xs <-> (s <= k < s + n)%nat /\ p k = Ok true).
Proof.
  revert s xs. induction n as [|n IH]; intros s xs; simpl.
  - intros [= <-]. split; [constructor|]. split; [intros k Hk; lia|].
    intros k. split; [intros Hk; inversion Hk | intros [Hk _]; lia].
  - intros H. apply bind_Ok in H as (b & Hb & H).
    apply bind_Ok in H as (xs' & Hxs & [= <-]).
    destruct (IH _ _ Hxs) as (Hs & Ht & Hm).
    assert (Forall (lt s) xs') as Hlt.
    { apply Forall_forall. intros k Hk. apply Hm in Hk. lia. }
    split; [|split].
    + destruct b; [constructor; assumption | assumption].
    + intros k Hk. destruct (decide (k = s)) as [->|Hne]; [eauto|].
      apply Ht. lia.
    + intros k. destruct b.
      * rewrite elem_of_cons, Hm. split.
        -- intros [->|[H1 H2]]; [split; [lia|exact Hb] | split; [lia|exact H2]].
        -- intros [H1 H2]. destruct (decide (k = s)); [left; auto|].
           right. split; [lia|exact H2].
      * rewrite Hm. split.
        -- intros [H1 H2]. split; [lia|exact H2].
        -- intros [H1 H2]. split; [|exact H2].
           destruct (decide (k = s)) as [->|]; [congruence|lia].
Qed.

Lemma held_items_Ok (A : matrix) (n_items i : nat) (indices : list nat) :
  held_items A n_items i = Ok indices ->
  StronglySorted lt indices /\
  (forall k, (k < n_items)%nat -> getitem2 A i k = Ok (entry A i k)) /\
  (forall k, k ∈ indices <-> (k < n_items)%nat /\ ~ entry A i k == 0).
Proof.
  unfold held_items. intros H.
  apply filterM_seq_Ok in H as (Hs & Ht & Hm).
  assert (forall k, (k < n_items)%nat -> getitem2 A i k = Ok (entry A i k))
    as Hget.
  { intros k Hk. destruct (Ht k) as [b Hb]; [lia|].
    apply bind_Ok in Hb as (a & Ha & _).
    rewrite Ha. f_equal. symmetry. apply getitem2_entry, Ha. }
  split; [exact Hs|]. split; [exact Hget|].
  intros k. rewrite Hm. split.
  - intros [Hk Hb]. split; [lia|]. rewrite Hget in Hb by lia.
    simpl in Hb. injection Hb as Hb. apply nonzero_true, Hb.
  - intros [Hk Hb]. split; [lia|]. rewrite Hget by lia. simpl.
    f_equal. apply nonzero_true, Hb.
Qed.

Lemma held_items_total (A : matrix) (rows n_items i : nat) :
  rectangular A rows n_items -> (i < rows)%nat ->
  exists indices, held_items A n_items i = Ok indices.
Proof.
  intros HA Hi. unfold held_items.
  assert (forall s n, (s + n <= n_items)%nat ->
            exists xs,
              filterM_result
                (fun k => a ← getitem2 A i k; Ok (nonzero a)) (seq s n) = Ok xs)
    as Haux.
  { intros s n. revert s. induction n as [|n IH]; intros s Hs; simpl.
    - eauto.
    - rewrite (getitem2_rectangular A rows n_items) by (auto; lia). simpl.
      destruct (IH (S s)) as [xs Hxs]; [lia|]. rewrite Hxs. simpl. eauto. }
  apply Haux. lia.
Qed.

(** ** The loop bodies as functions of the pair *)

Lemma pair_weight_pair_edge (V A : matrix) (n_items i j : nat) :
  pair_weight V A n_items i j =
  (r ← pair_edge V A n_items i j; Ok (option_map fst r)).
Proof.
  unfold pair_weight, pair_edge. destruct (negb (i =? j)%nat); [|reflexivity].
  destruct (held_items A n_items i) as [indices|e]; [|reflexivity]. simpl.
  destruct indices as [|k0 ks]; [reflexivity|].
  destruct (mapM_result (log_ratio V i j) (k0 :: ks)) as [logs|e] eqn:Hm;
    [|reflexivity].
  destruct (py_min_key_py_min ln_ltb _ _ _ Hm) as (x & w & H1 & H2 & _);
    [discriminate|].
  cbn [mbind result_bind]. rewrite H2, H1. reflexivity.
Qed.

Lemma build_edges_pairs (V A : matrix) :
  build_edges V A =
  (row0 ← getitem V 0;
   for_range (length V) (fun i edges =>
     for_range (length V) (fun j edges =>
       r ← pair_weight V A (length row0) i j;
       Ok (match r with
           | None => edges
           | Some w => edges ++ [(i, j, w)]
           end)) edges) []).
Proof.
  unfold build_edges. destruct (getitem V 0) as [row0|e]; [|reflexivity].
  simpl. unfold for_range.
  apply foldM_result_ext. intros i edges _.
  apply foldM_result_ext. intros j edges' _.
  unfold pair_weight. destruct (negb (i =? j)%nat); [|reflexivity].
  destruct (held_items A (length row0) i) as [indices|e]; [|reflexivity].
  simpl. destruct indices as [|k0 ks]; [reflexivity|].
  destruct (mapM_result (log_ratio V i j) (k0 :: ks)) as [logs|e];
    [|reflexivity].
  cbn [mbind result_bind].
  destruct (py_min ln_ltb logs); reflexivity.
Qed.

Lemma build_edges_items_pairs (V A : matrix) :
  build_edges_items V A =
  (row0 ← getitem V 0;
   for_range (length V) (fun i st =>
     for_range (length V) (fun j st =>
       r ← pair_edge V A (length row0) i j;
       Ok (match r with
           | None => st
           | Some (w, item) =>
               (st.1 ++ [(i, j, w)], <[(i, j) := item]> st.2)
           end)) st) ([], ∅)).
Proof.
  unfold build_edges_items. destruct (getitem V 0) as [row0|e]; [|reflexivity].
  simpl. unfold for_range.
  apply foldM_result_ext. intros i st _.
  apply foldM_result_ext. intros j [edges d] _.
  unfold pair_edge. destruct (negb (i =? j)%nat); [|reflexivity].
  destruct (held_items A (length row0) i) as [indices|e]; [|reflexivity].
  simpl. destruct indices as [|k0 ks]; [reflexivity|].
  destruct (mapM_result (log_ratio V i j) (k0 :: ks)) as [logs|e];
    [|reflexivity].
  cbn [mbind result_bind].
  destruct (py_min ln_ltb logs); [|reflexivity].
  destruct (py_min_key ln_ltb (log_ratio V i j) (k0 :: ks)); reflexivity.
Qed.

(** The edges the two entry points build are the same, and so are the
    exceptions raised while building them. *)
Lemma build_edges_proj (V A : matrix) :
  build_edges V A = (r ← build_edges_items V A; Ok r.1).
Proof.
  rewrite build_edges_pairs, build_edges_items_pairs.
  destruct (getitem V 0) as [row0|e]; [|reflexivity]. simpl.
  unfold for_range.
  apply (foldM_result_proj fst _ _ _) with (t := ([], ∅)).
  intros i st _.
  apply (foldM_result_proj fst). intros j [edges d] _.
  rewrite pair_weight_pair_edge.
  destruct (pair_edge V A (length row0) i j) as [[[w item]|]|e]; reflexivity.
Qed.

Lemma getitem_0_num_items (V : matrix) (row0 : list Q) :
  getitem V 0 = Ok row0 -> num_items V = length row0.
Proof.
  intros H. apply getitem_Ok in H. unfold num_items. rewrite H. reflexivity.
Qed.

(** ** What the loops have built *)

Lemma build_inv_iff (V A : matrix) (done done' : nat -> nat -> Prop)
  (st : list edge * gmap (nat * nat) nat) :
  (forall i j, done i j <-> done' i j) ->
  build_inv V A done st -> build_inv V A done' st.
Proof.
  intros Hd (H1 & H2 & H3). split; [|split]; [| |exact H3].
  - intros i j w. rewrite H1, Hd. reflexivity.
  - intros i j item. rewrite H2, Hd. reflexivity.
Qed.

Lemma build_inv_step (V A : matrix) (done : nat -> nat -> Prop)
  (st : list edge * gmap (nat * nat) nat) (i j : nat)
  (r : option (lnval * nat)) :
  build_inv V A done st -> ~ done i j ->
  pair_edge V A (num_items V) i j = Ok r ->
  build_inv V A (fun i' j' => done i' j' \/ (i' = i /\ j' = j))
    (match r with
     | None => st
     | Some (w, item) => (st.1 ++ [(i, j, w)], <[(i, j) := item]> st.2)
     end).
Proof.
  intros (H1 & H2 & H3) Hnd Hr. destruct r as [[w item]|].
  - split; [|split]; simpl.
    + intros i' j' w'. rewrite elem_of_app, list_elem_of_singleton, H1. split.
      * intros [[Hd He]|[= -> -> ->]]; [tauto|]. split; [auto|eauto].
      * intros [[Hd|[-> ->]] (item' & He)]; [left; eauto|].
        right. rewrite Hr in He. congruence.
    + intros i' j' item'. destruct (decide ((i, j) = (i', j'))) as [[= <- <-]|Hne].
      * rewrite lookup_insert_eq. split.
        -- intros [= <-]. split; [auto|eauto].
        -- intros [_ (w' & He)]. rewrite Hr in He. congruence.
      * rewrite lookup_insert_ne by exact Hne. rewrite H2. split.
        -- intros [Hd He]. tauto.
        -- intros [[Hd|[-> ->]] He]; [tauto|congruence].
    + rewrite fmap_app. simpl. apply NoDup_app. split; [exact H3|]. split.
      * intros [i' j'] Hin Hin'. apply list_elem_of_singleton in Hin' as [= -> ->].
        apply list_elem_of_fmap in Hin as ([[i' j'] w'] & [= <- <-] & Hin).
        apply H1 in Hin as [Hd _]. tauto.
      * apply NoDup_singleton.
  - split; [|split]; [| |exact H3].
    + intros i' j' w'. rewrite H1. split; [tauto|].
      intros [[Hd|[-> ->]] (item' & He)]; [eauto|congruence].
    + intros i' j' item'. rewrite H2. split; [tauto|].
      intros [[Hd|[-> ->]] (w' & He)]; [eauto|congruence].
Qed.

Lemma seq_split_fresh (n : nat) (pre post : list nat) (x : nat) :
  seq 0 n = pre ++ x :: post -> (x < n)%nat /\ x ∉ pre.
Proof.
  intros H. split.
  - assert (x ∈ seq 0 n) as Hx by (rewrite H; apply elem_of_app; right; left).
    apply elem_of_seq in Hx. lia.
  - pose proof (NoDup_seq 0 n) as Hnd. rewrite H in Hnd.
    apply NoDup_app in Hnd as (_ & Hnd & _). intros Hin.
    apply (Hnd x Hin). left.
Qed.

Lemma build_edges_items_inv (V A : matrix) (edges : list edge)
  (item_dict : gmap (nat * nat) nat) :
  build_edges_items V A = Ok (edges, item_dict) ->
  build_inv V A
    (fun i j => (i < num_players V)%nat /\ (j < num_players V)%nat)
    (edges, item_dict).
Proof.
  rewrite build_edges_items_pairs. intros H.
  apply bind_Ok in H as (row0 & Hrow & H).
  rewrite <- (getitem_0_num_items V row0 Hrow) in H.
  unfold for_range in H. fold (num_players V) in H.
  set (n := num_players V) in *.
  apply (foldM_result_ind _
           (fun pre st => build_inv V A (fun i j => i ∈ pre /\ (j < n)%nat) st))
    in H.
  - revert H. apply build_inv_iff. intros i j. rewrite elem_of_seq. lia.
  - split; [|split]; simpl.
    + intros i j w. split; [intros Hin; inversion Hin|].
      intros [[Hin _] _]. inversion Hin.
    + intros i j item. rewrite lookup_empty. split; [discriminate|].
      intros [[Hin _] _]. inversion Hin.
    + constructor.
  - intros pre i post st st1 Hl Hinv Hbody.
    apply seq_split_fresh in Hl as [Hi Hfresh].
    apply (foldM_result_ind _
             (fun pre_j st =>
                build_inv V A
                  (fun i' j' => (i' ∈ pre /\ (j' < n)%nat) \/
                                (i' = i /\ j' ∈ pre_j)) st))
      in Hbody.
    + revert Hbody. apply build_inv_iff. intros i' j'.
      rewrite elem_of_app, list_elem_of_singleton, elem_of_seq.
      split; [intros [[? ?]|[-> ?]]; split; auto; lia|].
      intros [[?| ->] ?]; [left; auto | right; split; auto; lia].
    + revert Hinv. apply build_inv_iff. intros i' j'.
      split; [tauto|]. intros [?|[_ Hin]]; [auto|inversion Hin].
    + intros pre_j j post_j s s1 Hl Hinv_j Hbody_j.
      apply seq_split_fresh in Hl as [Hj Hfresh_j].
      apply bind_Ok in Hbody_j as (r & Hr & [= <-]).
      eapply build_inv_iff; [|eapply (build_inv_step V A _ s i j r Hinv_j)].
      * intros i' j'. simpl.
        rewrite elem_of_app, list_elem_of_singleton. tauto.
      * intros [[Hin _]|[_ Hin]]; tauto.
      * exact Hr.
Qed.

(** ** The graph handed to the library *)

Lemma add_edge_fresh (G : DiGraph) (u v : nat) (w : lnval) :
  (u, v) ∉ G.*1 -> add_edge G u v w = G ++ [(u, v, w)].
Proof.
  induction G as [|[[u' v'] w'] G IH]; simpl; intros Hfresh.
  - reflexivity.
  - apply not_elem_of_cons in Hfresh as [Hne Hfresh].
    destruct (u =? u')%nat eqn:Eu, (v =? v')%nat eqn:Ev; simpl;
      try (rewrite IH by exact Hfresh; reflexivity).
    apply Nat.eqb_eq in Eu, Ev. subst. congruence.
Qed.

Lemma add_weighted_edges_from_fresh (G : DiGraph) (edges : list edge) :
  NoDup ((G ++ edges).*1) -> add_weighted_edges_from G edges = G ++ edges.
Proof.
  unfold add_weighted_edges_from.
  revert G. induction edges as [|[[u v] w] edges IH]; intros G Hnd; simpl.
  - rewrite app_nil_r. reflexivity.
  - assert ((u, v) ∉ G.*1) as Hfresh.
    { rewrite fmap_app in Hnd. apply NoDup_app in Hnd as (_ & Hnd & _).
      intros Hin. apply (Hnd _ Hin). simpl. left. }
    rewrite add_edge_fresh by exact Hfresh.
    rewrite IH; rewrite <- app_assoc; [reflexivity | exact Hnd].
Qed.

Lemma edge_weight_elem (G : DiGraph) (u v : nat) (w : lnval) :
  edge_weight G u v = Some w -> (u, v, w) ∈ G.
Proof.
  induction G as [|[[u' v'] w'] G IH]; simpl; [discriminate|].
  destruct (u =? u')%nat eqn:Eu, (v =? v')%nat eqn:Ev; simpl;
    try (intros H; right; apply IH, H).
  apply Nat.eqb_eq in Eu, Ev. subst. intros [= ->]. left.
Qed.


Lemma build_edges_items_graph (V A : matrix) (edges : list edge)
  (item_dict : gmap (nat * nat) nat) :
  build_edges_items V A = Ok (edges, item_dict) ->
  add_weighted_edges_from [] edges = edges.
Proof.
  intros H. apply build_edges_items_inv in H as (_ & _ & Hnd).
  apply add_weighted_edges_from_fresh. exact Hnd.
Qed.

(** ** The weight and the critical item of a pair *)

Lemma StronglySorted_split (q1 q2 : list nat) (x : nat) :
  StronglySorted lt (q1 ++ x :: q2) ->
  Forall (fun k => (k < x)%nat) q1 /\ Forall (lt x) q2.
Proof.
  induction q1 as [|y q1 IH]; simpl; intros H.
  - inversion H; subst. auto.
  - inversion H as [|? ? Hs Hall]; subst.
    destruct (IH Hs) as [H1 H2]. split; [|exact H2].
    constructor; [|exact H1].
    rewrite Forall_forall in Hall. apply Hall.
    apply elem_of_app. right. left.
Qed.

Lemma pair_edge_Some (V A : matrix) (n_items i j : nat) (w : lnval)
  (item : nat) :
  pair_edge V A n_items i j = Ok (Some (w, item)) ->
  i <> j /\ (item < n_items)%nat /\ ~ entry A i item == 0 /\
  log_ratio V i j item = Ok w /\
  forall k, (k < n_items)%nat -> ~ entry A i k == 0 ->
    exists wk, log_ratio V i j k = Ok wk /\ arg w <= arg wk /\
               ((k < item)%nat -> arg w < arg wk).
Proof.
  unfold pair_edge. destruct (i =? j)%nat eqn:Eij; simpl; [discriminate|].
  apply Nat.eqb_neq in Eij. intros H.
  apply bind_Ok in H as (indices & Hheld & H).
  destruct indices as [|k0 ks]; [discriminate|].
  apply bind_Ok in H as (logs & Hlogs & H).
  apply bind_Ok in H as (w' & Hmin & H).
  apply bind_Ok in H as (item' & Hkey & [= <- <-]).
  destruct (py_min_key_py_min ln_ltb _ _ _ Hlogs) as (x & w0 & H1 & H2 & H3);
    [discriminate|].
  rewrite Hkey in H1. injection H1 as <-.
  rewrite Hmin in H2. injection H2 as <-.
  apply py_min_key_first in Hkey
    as (q1 & q2 & kx & Hsplit & Hkx & Hq1 & Hq2).
  rewrite H3 in Hkx. injection Hkx as <-.
  apply held_items_Ok in Hheld as (Hsorted & _ & Hmem).
  rewrite Hsplit in Hsorted, Hmem.
  apply StronglySorted_split in Hsorted as [Hlow Hhigh].
  rewrite Forall_forall in Hlow, Hhigh.
  destruct (proj1 (Hmem item')) as [Hlt Hnz];
    [apply elem_of_app; right; left|].
  split; [exact Eij|]. split; [exact Hlt|]. split; [exact Hnz|].
  split; [exact H3|].
  intros k Hk Hnzk. pose proof (proj2 (Hmem k) (conj Hk Hnzk)) as Hin.
  apply elem_of_app in Hin as [Hin|Hin].
  - destruct (Hq1 k Hin) as (wk & Hwk & Hlt'). exists wk.
    split; [exact Hwk|]. split; [lra|]. intros _. exact Hlt'.
  - apply elem_of_cons in Hin as [->|Hin].
    + exists w'. split; [exact H3|]. split; [lra|]. lia.
    + destruct (Hq2 k Hin) as (wk & Hwk & Hle). exists wk.
      split; [exact Hwk|]. split; [exact Hle|].
      specialize (Hhigh k Hin). lia.
Qed.


(** ** What [Ln q] stands for *)








(** ** C8: the two minimisations agree *)


(** ** Valid inputs raise nothing *)

Lemma entry_lookup (m : matrix) (rows cols i k : nat) :
  rectangular m rows cols -> (i < rows)%nat -> (k < cols)%nat ->
  exists row, m !! i = Some row /\ row !! k = Some (entry m i k).
Proof.
  intros Hm Hi Hk.
  pose proof (getitem2_rectangular m rows cols i k Hm Hi Hk) as H.
  apply getitem2_Ok in H. exact H.
Qed.

Lemma entry_Forall (P : Q -> Prop) (m : matrix) (rows cols i k : nat) :
  rectangular m rows cols -> Forall (Forall P) m ->
  (i < rows)%nat -> (k < cols)%nat -> P (entry m i k).
Proof.
  intros Hm HP Hi Hk.
  destruct (entry_lookup m rows cols i k Hm Hi Hk) as (row & Hrow & Hx).
  rewrite Forall_forall in HP.
  assert (Forall P row) as Hr by (eapply HP, list_elem_of_lookup_2, Hrow).
  rewrite Forall_forall in Hr. eapply Hr, list_elem_of_lookup_2, Hx.
Qed.

Lemma log_ratio_total (V : matrix) (rows cols i j k : nat) :
  rectangular V rows cols -> Forall (Forall (fun x => 0 < x)) V ->
  (i < rows)%nat -> (j < rows)%nat -> (k < cols)%nat ->
  exists w, log_ratio V i j k = Ok w.
Proof.
  intros HV Hpos Hi Hj Hk.
  pose proof (entry_Forall _ V rows cols i k HV Hpos Hi Hk) as Hik.
  pose proof (entry_Forall _ V rows cols j k HV Hpos Hj Hk) as Hjk.
  simpl in Hik, Hjk.
  exists (Ln (entry V i k / entry V j k)). apply log_ratio_Ok.
  exists (entry V i k), (entry V j k).
  split; [eapply getitem2_rectangular; eauto|].
  split; [eapply getitem2_rectangular; eauto|].
  split; [lra|]. split; [|reflexivity].
  apply Qlt_shift_div_l; lra.
Qed.

Lemma pair_edge_total (V A : matrix) (i j : nat) :
  valid_input V A -> (i < num_players V)%nat -> (j < num_players V)%nat ->
  exists r, pair_edge V A (num_items V) i j = Ok r.
Proof.
  intros ((_ & HV & HA) & Hpos & _) Hi Hj. unfold pair_edge.
  destruct (negb (i =? j)%nat); [|eauto].
  destruct (held_items_total A _ _ i HA Hi) as [indices Hheld].
  rewrite Hheld. simpl. destruct indices as [|k0 ks]; [eauto|].
  apply held_items_Ok in Hheld as (_ & _ & Hmem).
  destruct (mapM_result_total (log_ratio V i j) (k0 :: ks)) as [logs Hlogs].
  { intros k Hin. apply list_elem_of_In, Hmem in Hin as [Hk _].
    eapply log_ratio_total; eauto. }
  destruct (py_min_key_py_min ln_ltb _ _ _ Hlogs) as (x & w & H1 & H2 & _);
    [discriminate|].
  rewrite Hlogs. cbn [mbind result_bind]. rewrite H2, H1. eauto.
Qed.

Lemma build_edges_items_total (V A : matrix) :
  valid_input V A ->
  exists edges item_dict, build_edges_items V A = Ok (edges, item_dict).
Proof.
  intros Hvalid. pose proof Hvalid as ((Hn & _) & _).
  rewrite build_edges_items_pairs.
  destruct (getitem_lt V 0) as [row0 Hrow]; [exact Hn|].
  rewrite Hrow. simpl. rewrite <- (getitem_0_num_items V row0 Hrow).
  unfold for_range. fold (num_players V).
  match goal with
  | |- exists _ _, ?t = _ =>
      assert (exists st', t = Ok st') as [[edges d] H]; [|eauto]
  end.
  apply foldM_result_total. intros i st1 Hi.
  apply foldM_result_total. intros j st2 Hj.
  apply list_elem_of_In, elem_of_seq in Hi, Hj.
  destruct (pair_edge_total V A i j Hvalid) as [r Hr]; [lia|lia|].
  rewrite Hr. simpl. eauto.
Qed.

(** ** The graph built is the exchange graph of the specification *)




Lemma walk_weight_cons (G : DiGraph) (u v : nat) (c : list nat) :
  walk_weight G (u :: v :: c) =
  (w ← edge_weight G u v; s ← walk_weight G (v :: c); Some (ln_add w s)).
Proof. reflexivity. Qed.

Section BuiltGraph.

Variables (V A : matrix) (edges : list edge)
  (item_dict : gmap (nat * nat) nat).
Hypothesis Hvalid : valid_input V A.
Hypothesis Hbuild : build_edges_items V A = Ok (edges, item_dict).





End BuiltGraph.

(** ** C1: [is_pareto_efficient] decides the absence of a negative cycle *)

Section Efficiency.

Variable negative_edge_cycle : DiGraph -> bool.

(** What the library promises of [negative_edge_cycle]. *)
Hypothesis negative_edge_cycle_spec :
  forall G, negative_edge_cycle G = true <-> exists c, negative_cycle G c.


End Efficiency.

(** ** Computations on [allocations] *)

Lemma bind_M_unfold {X Y : Type} (m : M X) (k : X -> M Y) (A : matrix) :
  (m ≫= k) A =
  match m A with
  | (Ok x, A') => k x A'
  | (Raise e, A') => (Raise e, A')
  end.
Proof. reflexivity. Qed.

Lemma bind_M_Ok {X Y : Type} (m : M X) (k : X -> M Y) (A A' : matrix) (y : Y) :
  (m ≫= k) A = (Ok y, A') <->
  exists x A1, m A = (Ok x, A1) /\ k x A1 = (Ok y, A').
Proof.
  rewrite bind_M_unfold. destruct (m A) as [[x|e] A1]; split.
  - intros H. exists x, A1. auto.
  - intros (x' & A1' & [= -> ->] & H). exact H.
  - discriminate.
  - intros (x' & A1' & [=] & _).
Qed.

Lemma lift_Ok {X : Type} (r : result X) (A A' : matrix) (x : X) :
  lift r A = (Ok x, A') <-> r = Ok x /\ A' = A.
Proof. unfold lift. split; [intros [= -> ->]; auto | intros [-> ->]; auto]. Qed.

Lemma load_Ok (i k : nat) (A A' : matrix) (x : Q) :
  load i k A = (Ok x, A') <-> getitem2 A i k = Ok x /\ A' = A.
Proof. unfold load. split; [intros [= -> ->]; auto | intros [-> ->]; auto]. Qed.

Lemma store_Ok (i k : nat) (x : Q) (A A' : matrix) (u : unit) :
  store i k x A = (Ok u, A') <->
  exists row,
    A !! i = Some row /\ (k < length row)%nat /\
    A' = <[i := <[k := x]> row]> A.
Proof.
  unfold store. destruct (A !! i) as [row|]; [|split].
  - destruct (k <? length row)%nat eqn:E; split.
    + intros [= <-]. apply Nat.ltb_lt in E. eauto.
    + intros (row' & [= <-] & _ & ->). destruct u. reflexivity.
    + discriminate.
    + intros (row' & [= <-] & Hk & _). apply Nat.ltb_lt in Hk. congruence.
  - discriminate.
  - intros (row' & [=] & _).
Qed.

Lemma foldM_M_Ok_inv {X S : Type} (P : matrix -> Prop) (body : X -> S -> M S)
  (l : list X) (s s' : S) (A A' : matrix) :
  (forall x s A s1 A1,
      x ∈ l -> P A -> body x s A = (Ok s1, A1) -> P A1) ->
  P A -> foldM_M body l s A = (Ok s', A') -> P A'.
Proof.
  revert s A. induction l as [|x l IH]; intros s A Hstep HP H.
  - simpl in H. injection H as <- <-. exact HP.
  - simpl in H. apply bind_M_Ok in H as (s1 & A1 & Hb & H).
    apply (IH s1 A1).
    + intros y s2 A2 s3 A3 Hy. apply Hstep. right. exact Hy.
    + apply (Hstep x s A s1 A1); [left | exact HP | exact Hb].
    + exact H.
Qed.

(** ** Writing one entry *)

Lemma getitem2_insert (A : matrix) (row : list Q) (i k i' k' : nat) (x : Q) :
  A !! i = Some row -> (k < length row)%nat ->
  getitem2 (<[i := <[k := x]> row]> A) i' k' =
  if decide (i' = i /\ k' = k) then Ok x else getitem2 A i' k'.
Proof.
  intros Hrow Hk. unfold getitem2, getitem.
  assert (i < length A)%nat as Hi by (eapply lookup_lt_Some, Hrow).
  destruct (decide (i' = i)) as [->|Hi'].
  - rewrite list_lookup_insert_eq by exact Hi. simpl. rewrite Hrow. simpl.
    destruct (decide (k' = k)) as [->|Hk'].
    + rewrite list_lookup_insert_eq by exact Hk.
      rewrite decide_True by auto. reflexivity.
    + rewrite list_lookup_insert_ne by auto.
      rewrite decide_False by tauto. reflexivity.
  - rewrite list_lookup_insert_ne by auto.
    rewrite decide_False by tauto. reflexivity.
Qed.


(** ** One step of the adjustment loop *)

Lemma adjust_step_Ok (V : matrix) (item_dict : gmap (nat * nat) nat)
  (cycle : list nat) (t : nat) (epsilon epsilon' : Q) (A A' : matrix) :
  adjust_step V item_dict cycle t epsilon A = (Ok epsilon', A') ->
  exists u v item delta rv ru r,
    cycle !! t = Some u /\ cycle !! (t + 1)%nat = Some v /\
    item_dict !! (u, v) = Some item /\
    transfer V epsilon u v item = Ok delta /\
    A !! v = Some rv /\ (item < length rv)%nat /\
    <[v := <[item := entry A v item + delta]> rv]> A !! u = Some ru /\
    (item < length ru)%nat /\
    A' = <[u := <[item := default 0 (ru !! item) - delta]> ru]>
           (<[v := <[item := entry A v item + delta]> rv]> A) /\
    (vu ← getitem2 V u item; vv ← getitem2 V v item; truediv vu vv) = Ok r /\
    epsilon' = epsilon * r.
Proof.
  unfold adjust_step. intros H.
  apply bind_M_Ok in H as (u & A0 & Hu & H). apply lift_Ok in Hu as [Hu ->].
  apply bind_M_Ok in H as (v & A0 & Hv & H). apply lift_Ok in Hv as [Hv ->].
  apply bind_M_Ok in H as (item & A0 & Hitem & H).
  apply lift_Ok in Hitem as [Hitem ->].
  apply bind_M_Ok in H as (old & A0 & Hold & H).
  apply load_Ok in Hold as [Hold ->].
  apply bind_M_Ok in H as (delta & A0 & Hd & H). apply lift_Ok in Hd as [Hd ->].
  apply bind_M_Ok in H as (? & A1 & Hst & H).
  apply store_Ok in Hst as (rv & Hrv & Hlen & ->).
  apply bind_M_Ok in H as (old' & A0 & Hold' & H).
  apply load_Ok in Hold' as [Hold' ->].
  apply bind_M_Ok in H as (delta' & A0 & Hd' & H).
  apply lift_Ok in Hd' as [Hd' ->].
  apply bind_M_Ok in H as (? & A2 & Hst' & H).
  apply store_Ok in Hst' as (ru & Hru & Hlen' & ->).
  apply bind_M_Ok in H as (vu & A0 & Hvu & H). apply lift_Ok in Hvu as [Hvu ->].
  apply bind_M_Ok in H as (vv & A0 & Hvv & H). apply lift_Ok in Hvv as [Hvv ->].
  apply bind_M_Ok in H as (r & A0 & Hr & H). apply lift_Ok in Hr as [Hr ->].
  injection H as <- <-.
  rewrite Hd in Hd'. injection Hd' as <-.
  apply getitem_Ok in Hu, Hv.
  unfold dict_get in Hitem.
  destruct (item_dict !! (u, v)) as [item'|] eqn:Hlk; [|discriminate].
  injection Hitem as ->.
  pose proof (getitem2_entry _ _ _ _ Hold) as <-.
  assert (default 0 (ru !! item) = old') as <-.
  { apply getitem2_Ok in Hold' as (ru' & Hru' & Hx).
    rewrite Hru in Hru'. injection Hru' as <-. rewrite Hx. reflexivity. }
  exists u, v, item, delta, rv, ru, r.
  repeat (split; [assumption || reflexivity|]).
  split; [|reflexivity]. rewrite Hvu. simpl. rewrite Hvv. simpl. exact Hr.
Qed.


Lemma adjust_step_frame (V : matrix) (item_dict : gmap (nat * nat) nat)
  (cycle : list nat) (t : nat) (epsilon epsilon' : Q) (A A' : matrix)
  (i k : nat) :
  adjust_step V item_dict cycle t epsilon A = (Ok epsilon', A') ->
  ~ touched item_dict cycle i k ->
  getitem2 A' i k = getitem2 A i k.
Proof.
  intros H Hfree. apply adjust_step_Ok in H
    as (u & v & item & delta & rv & ru & r & Hu & Hv & Hitem & _ &
        Hrv & Hlen & Hru & Hlen' & -> & _).
  assert (~ (k = item /\ (i = u \/ i = v))) as Hne.
  { intros [-> Hi]. apply Hfree. exists t, u, v. auto. }
  rewrite (getitem2_insert _ ru u item i k _ Hru Hlen').
  rewrite decide_False by tauto.
  rewrite (getitem2_insert _ rv v item i k _ Hrv Hlen).
  rewrite decide_False by tauto. reflexivity.
Qed.

(** ** When the function hands the allocations back *)

Lemma check_and_improve_RetAllocations
  (find_negative_cycle : DiGraph -> nat -> result (list nat))
  (V A A' : matrix) :
  check_and_improve_pareto_effiecient find_negative_cycle V A
  = (Ok RetAllocations, A') ->
  exists edges item_dict e0 cycle epsilon',
    build_edges_items V A = Ok (edges, item_dict) /\
    edges !! 0%nat = Some e0 /\
    find_negative_cycle (add_weighted_edges_from [] edges) e0.1.1 = Ok cycle /\
    foldM_M (adjust_step V item_dict cycle) (seq 0 (length cycle - 1))
      (1 # 1000) A = (Ok epsilon', A').
Proof.
  unfold check_and_improve_pareto_effiecient. intros H.
  destruct (build_edges_items V A) as [[edges d]|e]; [|discriminate].
  destruct (getitem edges 0) as [e0|e] eqn:He0; simpl in H;
    [|destruct e; discriminate].
  apply getitem_Ok in He0.
  destruct (find_negative_cycle _ _) as [cycle|e] eqn:Hc.
  - apply bind_M_Ok in H as (eps' & A1 & Hloop & H).
    injection H as <-.
    exists edges, d, e0, cycle, eps'. auto.
  - destruct e; discriminate.
Qed.

(** ** C3: the adjustment conserves every item *)


(** ** C6: only the cycle's critical entries are written *)

(** C6.  Whenever [check_and_improve_pareto_effiecient] returns the
    allocation matrix, it is the caller's matrix in which only entries at a
    position (player, critical item) of some edge of the detected cycle may
    differ: every other position reads as it did on entry. *)
Theorem check_and_improve_frame
  (find_negative_cycle : DiGraph -> nat -> result (list nat))
  (V A A' : matrix) :
  check_and_improve_pareto_effiecient find_negative_cycle V A
  = (Ok RetAllocations, A') ->
  exists edges item_dict source cycle,
    build_edges_items V A = Ok (edges, item_dict) /\
    find_negative_cycle (add_weighted_edges_from [] edges) source = Ok cycle /\
    forall i k,
      ~ touched item_dict cycle i k -> getitem2 A' i k = getitem2 A i k.
Proof.
  intros H. apply check_and_improve_RetAllocations in H
    as (edges & d & e0 & cycle & eps' & Hbuild & _ & Hc & Hloop).
  exists edges, d, e0.1.1, cycle. split; [exact Hbuild|].
  split; [exact Hc|]. intros i k Hfree.
  revert Hloop.
  apply (foldM_M_Ok_inv (fun B => getitem2 B i k = getitem2 A i k)).
  - intros t eps B eps1 B1 _ HB Hstep.
    rewrite (adjust_step_frame _ _ _ _ _ _ _ _ i k Hstep Hfree). exact HB.
  - reflexivity.
Qed.

(** ** C10: only the zero pattern of the allocation matters *)

Lemma filterM_result_ext {X : Type} (p p' : X -> result bool) (l : list X) :
  (forall x, p x = p' x) -> filterM_result p l = filterM_result p' l.
Proof.
  intros H. induction l as [|x l IH]; simpl; [reflexivity|].
  rewrite H, IH. reflexivity.
Qed.

Lemma same_pattern_nonzero (A1 A2 : matrix) (i k : nat) :
  same_pattern A1 A2 ->
  (a ← getitem2 A1 i k; Ok (nonzero a)) = (a ← getitem2 A2 i k; Ok (nonzero a)).
Proof.
  intros H. unfold getitem2, getitem.
  destruct (A1 !! i) as [r1|] eqn:H1.
  - destruct (Forall2_lookup_l _ _ _ _ _ H H1) as (r2 & H2 & Hr).
    rewrite H2. simpl.
    destruct (r1 !! k) as [a1|] eqn:Ha1.
    + destruct (Forall2_lookup_l _ _ _ _ _ Hr Ha1) as (a2 & Ha2 & Ha).
      rewrite Ha2. simpl. f_equal. unfold nonzero. f_equal.
      destruct (Qeq_bool a1 0) eqn:E1, (Qeq_bool a2 0) eqn:E2; try reflexivity.
      * apply Qeq_bool_iff, Ha, Qeq_bool_iff in E1. congruence.
      * apply Qeq_bool_iff, Ha, Qeq_bool_iff in E2. congruence.
    + assert (r2 !! k = None) as ->; [|reflexivity].
      apply lookup_ge_None. apply lookup_ge_None in Ha1.
      rewrite <- (Forall2_length _ _ _ Hr). exact Ha1.
  - assert (A2 !! i = None) as ->; [|reflexivity].
    apply lookup_ge_None. apply lookup_ge_None in H1.
    rewrite <- (Forall2_length _ _ _ H). exact H1.
Qed.

Lemma same_pattern_held_items (A1 A2 : matrix) (n_items i : nat) :
  same_pattern A1 A2 -> held_items A1 n_items i = held_items A2 n_items i.
Proof.
  intros H. unfold held_items. apply filterM_result_ext.
  intros k. apply same_pattern_nonzero, H.
Qed.

Lemma same_pattern_build_edges (V A1 A2 : matrix) :
  same_pattern A1 A2 -> build_edges V A1 = build_edges V A2.
Proof.
  intros H. unfold build_edges.
  destruct (getitem V 0) as [row0|e]; [|reflexivity]. simpl.
  unfold for_range. apply foldM_result_ext. intros i edges _.
  apply foldM_result_ext. intros j edges' _.
  rewrite (same_pattern_held_items A1 A2 _ i H). reflexivity.
Qed.

(** C10.  [is_pareto_efficient] reads the allocation only through the test
    [allocations[i][k] != 0]: two allocation matrices of the same shape
    whose entries vanish at the same positions give the same outcome, be it
    a boolean or an exception. *)
Theorem is_pareto_efficient_zero_pattern
  (negative_edge_cycle : DiGraph -> bool) (V A1 A2 : matrix) :
  same_pattern A1 A2 ->
  is_pareto_efficient negative_edge_cycle V A1 =
  is_pareto_efficient negative_edge_cycle V A2.
Proof.
  intros H. unfold is_pareto_efficient.
  rewrite (same_pattern_build_edges V A1 A2 H). reflexivity.
Qed.

(** ** The graph without edges *)

Lemma no_cycle_in_empty_graph (c : list nat) : ~ negative_cycle [] c.
Proof.
  intros ((u & mid & ->) & w & Hw & _).
  destruct mid as [|v mid]; simpl in Hw; discriminate.
Qed.

Lemma is_pareto_efficient_no_edges (negative_edge_cycle : DiGraph -> bool)
  (V A : matrix) :
  negative_edge_cycle [] = false ->
  build_edges V A = Ok [] ->
  is_pareto_efficient negative_edge_cycle V A = Ok true.
Proof.
  intros Hnec Hbuild. unfold is_pareto_efficient. rewrite Hbuild. simpl.
  rewrite Hnec. reflexivity.
Qed.


(** C5.  When no edge is built (a single player, or nothing allocated),
    [is_pareto_efficient] reports [True], but
    [check_and_improve_pareto_effiecient] does not: [edges[0][0]] is
    evaluated on the empty list and the [IndexError] it raises is not the
    exception the [try] catches.  The allocations are left as they were. *)
Theorem check_and_improve_no_edges_raises
  (negative_edge_cycle : DiGraph -> bool)
  (find_negative_cycle : DiGraph -> nat -> result (list nat))
  (V A : matrix) (item_dict : gmap (nat * nat) nat) :
  negative_edge_cycle [] = false ->
  build_edges_items V A = Ok ([], item_dict) ->
  is_pareto_efficient negative_edge_cycle V A = Ok true /\
  check_and_improve_pareto_effiecient find_negative_cycle V A
  = (Raise IndexError, A).
Proof.
  intros Hnec Hbuild. split.
  - apply is_pareto_efficient_no_edges; [exact Hnec|].
    rewrite build_edges_proj, Hbuild. reflexivity.
  - unfold check_and_improve_pareto_effiecient. rewrite Hbuild. reflexivity.
Qed.

(** ** C7: ratios without a logarithm *)












(** ** Closed walks *)

Lemma closedb_closed (c : list nat) : closedb c = true <-> closed c.
Proof.
  unfold closedb, closed. split.
  - destruct c as [|u [|v t]]; try discriminate.
    intros H. apply bool_decide_eq_true in H.
    apply last_Some in H as [mid Hmid]. exists u, mid. rewrite Hmid. reflexivity.
  - intros (u & mid & ->). destruct mid as [|v mid]; simpl.
    + apply bool_decide_eq_true. reflexivity.
    + apply bool_decide_eq_true. rewrite app_comm_cons. apply last_snoc.
Qed.

Lemma is_negative_cycle_true (G : DiGraph) (c : list nat) :
  is_negative_cycle G c = true <-> negative_cycle G c.
Proof.
  unfold is_negative_cycle, negative_cycle.
  rewrite andb_true_iff, closedb_closed. split.
  - intros [Hc Hw]. split; [exact Hc|].
    destruct (walk_weight G c) as [w|]; [eauto|discriminate].
  - intros [Hc (w & -> & Hw)]. auto.
Qed.

Lemma walk_weight_app (G : DiGraph) (l1 l2 : list nat) (x : nat) (w : lnval) :
  walk_weight G (l1 ++ x :: l2) = Some w ->
  exists w1 w2,
    walk_weight G (l1 ++ [x]) = Some w1 /\
    walk_weight G (x :: l2) = Some w2 /\
    arg w == arg w1 * arg w2.
Proof.
  revert w. induction l1 as [|a l1 IH]; intros w H.
  - exists ln_zero, w. simpl in *. split; [reflexivity|].
    split; [exact H|]. ring.
  - destruct l1 as [|b l1].
    + change (walk_weight G (a :: x :: l2) = Some w) in H.
      rewrite walk_weight_cons in H.
      destruct (edge_weight G a x) as [wa|] eqn:Ha;
        cbn [mbind option_bind] in H; [|discriminate].
      destruct (walk_weight G (x :: l2)) as [s|];
        cbn [mbind option_bind] in H; [|discriminate].
      injection H as <-. exists (ln_add wa ln_zero), s.
      split; [|split; [reflexivity|simpl; ring]].
      change (walk_weight G (a :: [x]) = Some (ln_add wa ln_zero)).
      rewrite walk_weight_cons, Ha. reflexivity.
    + change (walk_weight G (a :: b :: l1 ++ x :: l2) = Some w) in H.
      rewrite walk_weight_cons in H.
      destruct (edge_weight G a b) as [wa|] eqn:Ha;
        cbn [mbind option_bind] in H; [|discriminate].
      destruct (walk_weight G (b :: l1 ++ x :: l2)) as [s|] eqn:Hs;
        cbn [mbind option_bind] in H; [|discriminate].
      injection H as <-.
      destruct (IH s Hs) as (w1 & w2 & H1 & H2 & Heq).
      exists (ln_add wa w1), w2. split; [|split; [exact H2|]].
      * change (walk_weight G (a :: b :: l1 ++ [x]) = Some (ln_add wa w1)).
        rewrite walk_weight_cons, Ha. cbn [mbind option_bind].
        change (b :: l1 ++ [x]) with ((b :: l1) ++ [x]). rewrite H1.
        reflexivity.
      * simpl. rewrite Heq. ring.
Qed.

Lemma walk_weight_join (G : DiGraph) (l1 l2 : list nat) (x : nat)
  (w1 w2 : lnval) :
  walk_weight G (l1 ++ [x]) = Some w1 ->
  walk_weight G (x :: l2) = Some w2 ->
  exists w, walk_weight G (l1 ++ x :: l2) = Some w /\
            arg w == arg w1 * arg w2.
Proof.
  revert w1. induction l1 as [|a l1 IH]; intros w1 H1 H2.
  - exists w2. simpl in *. split; [exact H2|]. injection H1 as <-.
    simpl. ring.
  - destruct l1 as [|b l1].
    + change (walk_weight G (a :: [x]) = Some w1) in H1.
      rewrite walk_weight_cons in H1.
      destruct (edge_weight G a x) as [wa|] eqn:Ha;
        cbn [mbind option_bind] in H1; [|discriminate].
      simpl in H1. injection H1 as <-.
      exists (ln_add wa w2). split; [|simpl; ring].
      change (walk_weight G (a :: x :: l2) = Some (ln_add wa w2)).
      rewrite walk_weight_cons, Ha. cbn [mbind option_bind]. rewrite H2.
      reflexivity.
    + change (walk_weight G (a :: b :: l1 ++ [x]) = Some w1) in H1.
      rewrite walk_weight_cons in H1.
      destruct (edge_weight G a b) as [wa|] eqn:Ha;
        cbn [mbind option_bind] in H1; [|discriminate].
      destruct (walk_weight G (b :: l1 ++ [x])) as [s|] eqn:Hs;
        cbn [mbind option_bind] in H1; [|discriminate].
      injection H1 as <-.
      destruct (IH s Hs H2) as (w & Hw & Heq).
      exists (ln_add wa w). split; [|simpl; rewrite Heq; ring].
      change (walk_weight G (a :: b :: l1 ++ x :: l2) = Some (ln_add wa w)).
      rewrite walk_weight_cons, Ha. cbn [mbind option_bind].
      change (b :: l1 ++ x :: l2) with ((b :: l1) ++ x :: l2). rewrite Hw.
      reflexivity.
Qed.

Lemma not_NoDup_split (l : list nat) :
  ~ NoDup l -> exists x l1 l2 l3, l = l1 ++ x :: l2 ++ x :: l3.
Proof.
  induction l as [|a l IH]; intros H.
  - exfalso. apply H. constructor.
  - destruct (decide (a ∈ l)) as [Hin|Hnin].
    + apply list_elem_of_split in Hin as (l2 & l3 & ->).
      exists a, [], l2, l3. reflexivity.
    + destruct IH as (x & l1 & l2 & l3 & ->).
      * intros Hnd. apply H. constructor; assumption.
      * exists x, (a :: l1), l2, l3. reflexivity.
Qed.

(** A negative closed walk contains a negative simple cycle: cut the walk at
    a node it passes twice; one of the two closed walks obtained is negative
    and both are shorter. *)
Lemma negative_cycle_simple_bounded (G : DiGraph) (n : nat) :
  forall c, (length c <= n)%nat -> negative_cycle G c ->
            exists c', negative_cycle G c' /\ simple c'.
Proof.
  induction n as [|n IH]; intros c Hlen Hneg.
  - destruct Hneg as ((u & mid & ->) & _). simpl in Hlen. lia.
  - destruct (decide (NoDup (tail c))) as [Hnd|Hdup]; [eauto|].
    destruct Hneg as ((u & mid & ->) & w & Hw & Hnegw).
    simpl in Hdup. apply not_NoDup_split in Hdup as (x & l1 & l2 & l3 & Hsplit).
    rewrite Hsplit in Hw, Hlen. apply ln_negb_true in Hnegw.
    change (walk_weight G ((u :: l1) ++ x :: l2 ++ x :: l3) = Some w) in Hw.
    apply walk_weight_app in Hw as (w1 & w2 & Hw1 & Hw2 & Hw12).
    change (walk_weight G ((x :: l2) ++ x :: l3) = Some w2) in Hw2.
    apply walk_weight_app in Hw2 as (w3 & w4 & Hw3 & Hw4 & Hw34).
    destruct (walk_weight_join G (u :: l1) l3 x w1 w4 Hw1 Hw4)
      as (wo & Hwo & Hwo14).
    simpl in Hlen. rewrite length_app in Hlen. simpl in Hlen.
    rewrite length_app in Hlen. simpl in Hlen.
    destruct (Qlt_le_dec (arg w3) 1) as [Hin|Hin].
    + apply (IH (x :: l2 ++ [x])).
      * simpl. rewrite length_app. simpl. lia.
      * split; [exists x, l2; reflexivity|]. exists w3.
        split; [exact Hw3 | apply ln_negb_true, Hin].
    + apply (IH (u :: l1 ++ x :: l3)).
      * simpl. rewrite length_app. simpl. lia.
      * split.
        -- destruct l3 as [|z l3 _] using rev_ind.
           ++ assert (x = u) as ->.
              { apply (f_equal last) in Hsplit.
                rewrite last_snoc in Hsplit.
                replace (l1 ++ x :: l2 ++ [x])
                  with ((l1 ++ x :: l2) ++ [x]) in Hsplit
                  by (rewrite <- app_assoc; reflexivity).
                rewrite last_snoc in Hsplit. congruence. }
              exists u, l1. reflexivity.
           ++ assert (z = u) as ->.
              { apply (f_equal last) in Hsplit.
                rewrite last_snoc in Hsplit.
                replace (l1 ++ x :: l2 ++ x :: l3 ++ [z])
                  with ((l1 ++ x :: l2 ++ x :: l3) ++ [z]) in Hsplit
                  by (rewrite <- !app_assoc; simpl; rewrite <- !app_assoc;
                      reflexivity).
                rewrite last_snoc in Hsplit. congruence. }
              exists u, (l1 ++ x :: l3).
              rewrite <- app_assoc. reflexivity.
        -- exists wo. split; [exact Hwo|]. apply ln_negb_true.
           assert (arg w == arg wo * arg w3) as Heq
             by (rewrite Hw12, Hw34, Hwo14; ring).
           rewrite Heq in Hnegw.
           destruct (Qlt_le_dec (arg wo) 1) as [Hout|Hout]; [exact Hout|].
           exfalso. nra.
Qed.

Lemma negative_cycle_simple (G : DiGraph) (c : list nat) :
  negative_cycle G c -> exists c', negative_cycle G c' /\ simple c'.
Proof. apply (negative_cycle_simple_bounded G (length c)). lia. Qed.

(** ** The reference detector meets what is assumed of the library *)

Lemma elem_of_nodes (G : DiGraph) (x : nat) :
  x ∈ Nx.nodes G <-> exists e : edge, e ∈ G /\ (x = e.1.1 \/ x = e.1.2).
Proof.
  unfold Nx.nodes.
  rewrite elem_of_reverse, elem_of_remove_dups, elem_of_reverse.
  rewrite list_elem_of_In, in_flat_map. split.
  - intros (e & He & Hx). exists e. apply list_elem_of_In in He.
    simpl in Hx. destruct Hx as [<-|[<-|[]]]; auto.
  - intros (e & He & Hx). exists e. apply list_elem_of_In in He.
    simpl. destruct Hx as [->| ->]; auto.
Qed.

Lemma in_lists_of_length (ns : list nat) (k : nat) (l : list nat) :
  In l (Nx.lists_of_length ns k) <->
  length l = k /\ Forall (fun x => x ∈ ns) l.
Proof.
  revert l. induction k as [|k IH]; intros l; simpl.
  - split.
    + intros [<-|[]]. split; [reflexivity | constructor].
    + intros [Hl _]. left. symmetry. apply nil_length_inv, Hl.
  - rewrite in_flat_map. split.
    + intros (x & Hx & Hl). apply in_map_iff in Hl as (l' & <- & Hl').
      apply IH in Hl' as [Hlen Hall]. split; [simpl; lia|].
      constructor; [apply list_elem_of_In, Hx | exact Hall].
    + intros [Hlen Hall]. destruct l as [|x l]; [discriminate|].
      inversion Hall as [|? ? Hx Hl]; subst. exists x.
      split; [apply list_elem_of_In, Hx|].
      apply in_map, IH. split; [simpl in Hlen; lia | exact Hl].
Qed.

Lemma walk_weight_nodes (G : DiGraph) (u v : nat) (c : list nat) (w : lnval) :
  walk_weight G (u :: v :: c) = Some w ->
  Forall (fun x => x ∈ Nx.nodes G) (u :: v :: c).
Proof.
  revert u v w. induction c as [|z c IH]; intros u v w H;
    rewrite walk_weight_cons in H;
    destruct (edge_weight G u v) as [wa|] eqn:Ha;
    cbn [mbind option_bind] in H; try discriminate;
    apply edge_weight_elem in Ha.
  - repeat constructor; apply elem_of_nodes; exists (u, v, wa); auto.
  - destruct (walk_weight G (v :: z :: c)) as [s|] eqn:Hs;
      cbn [mbind option_bind] in H; [|discriminate].
    constructor; [|eapply IH, Hs].
    apply elem_of_nodes. exists (u, v, wa). auto.
Qed.

Lemma simple_cycle_candidate (G : DiGraph) (c : list nat) :
  negative_cycle G c -> simple c -> In c (Nx.candidates G).
Proof.
  intros ((u & mid & ->) & w & Hw & _) Hsimple.
  unfold simple in Hsimple. simpl in Hsimple.
  assert (NoDup (u :: mid)) as Hnd.
  { apply NoDup_app in Hsimple as (Hmid & Hfresh & _).
    constructor; [|exact Hmid]. intros Hin. apply (Hfresh u Hin). left. }
  assert (Forall (fun x => x ∈ Nx.nodes G) (u :: mid)) as Hnodes.
  { destruct mid as [|v mid].
    - apply walk_weight_nodes in Hw. inversion Hw; subst.
      constructor; [assumption | constructor].
    - apply walk_weight_nodes in Hw.
      apply (proj1 (Forall_app _ (u :: v :: mid) [u])) in Hw as [Hw _].
      exact Hw. }
  assert (length (u :: mid) <= length (Nx.nodes G))%nat as Hlen.
  { apply submseteq_length, NoDup_submseteq; [exact Hnd|].
    rewrite Forall_forall in Hnodes. exact Hnodes. }
  unfold Nx.candidates. apply in_flat_map. exists (length mid). split.
  - apply in_seq. simpl in Hlen. lia.
  - apply in_map_iff. exists (u :: mid). split; [reflexivity|].
    apply in_lists_of_length. auto.
Qed.

Lemma in_simple_negative_cycles (G : DiGraph) (c : list nat) :
  In c (Nx.simple_negative_cycles G) <-> negative_cycle G c /\ simple c.
Proof.
  unfold Nx.simple_negative_cycles, Nx.is_simple_negative_cycle.
  rewrite filter_In, andb_true_iff, is_negative_cycle_true,
    bool_decide_eq_true.
  split; [tauto|]. intros [Hneg Hs]. split; [|auto].
  apply simple_cycle_candidate; assumption.
Qed.

Lemma Nx_negative_edge_cycle_spec (G : DiGraph) :
  Nx.negative_edge_cycle G = true <-> exists c, negative_cycle G c.
Proof.
  unfold Nx.negative_edge_cycle. split.
  - destruct (Nx.simple_negative_cycles G) as [|c l] eqn:E; [discriminate|].
    intros _. exists c.
    apply (in_simple_negative_cycles G c). rewrite E. left. reflexivity.
  - intros (c & Hc). apply negative_cycle_simple in Hc as (c' & Hneg & Hs).
    pose proof (proj2 (in_simple_negative_cycles G c') (conj Hneg Hs)) as Hin.
    destruct (Nx.simple_negative_cycles G); [destruct Hin | reflexivity].
Qed.

Lemma Nx_find_negative_cycle_sound (G : DiGraph) (s : nat) (c : list nat) :
  Nx.find_negative_cycle G s = Ok c -> negative_cycle G c /\ simple c.
Proof.
  unfold Nx.find_negative_cycle.
  destruct (Nx.simple_negative_cycles G) as [|c' l] eqn:E; [discriminate|].
  intros [= <-]. apply in_simple_negative_cycles. rewrite E. left. reflexivity.
Qed.

Lemma Nx_find_negative_cycle_complete (G : DiGraph) (s t : nat)
  (c : list nat) :
  negative_cycle G c -> head c = Some t -> reachable G s t ->
  exists c', Nx.find_negative_cycle G s = Ok c'.
Proof.
  intros Hc _ _.
  apply negative_cycle_simple in Hc as (c' & Hneg & Hs).
  pose proof (proj2 (in_simple_negative_cycles G c') (conj Hneg Hs)) as Hin.
  unfold Nx.find_negative_cycle.
  destruct (Nx.simple_negative_cycles G) as [|c0 l]; [destruct Hin | eauto].
Qed.

(** ** The adjustment along a given cycle *)

Lemma check_and_improve_cycle
  (find_negative_cycle : DiGraph -> nat -> result (list nat))
  (V A : matrix) (edges : list edge) (item_dict : gmap (nat * nat) nat)
  (e0 : edge) (cycle : list nat) :
  build_edges_items V A = Ok (edges, item_dict) ->
  edges !! 0%nat = Some e0 ->
  find_negative_cycle (add_weighted_edges_from [] edges) e0.1.1 = Ok cycle ->
  check_and_improve_pareto_effiecient find_negative_cycle V A =
  (_ ← foldM_M (adjust_step V item_dict cycle) (seq 0 (length cycle - 1))
         (1 # 1000);
   ret_M RetAllocations) A.
Proof.
  intros Hbuild He0 Hc. unfold check_and_improve_pareto_effiecient.
  rewrite Hbuild. apply getitem_Ok in He0. rewrite He0. simpl. rewrite Hc.
  reflexivity.
Qed.

Ltac solve_matrix :=
  repeat first
    [ split
    | constructor
    | reflexivity
    | progress (unfold num_players, num_items; simpl)
    | lia
    | lra
    | discriminate ].


Lemma swap_valid : valid_input swap_V swap_A.
Proof. unfold valid_input, same_shape, rectangular. solve_matrix. Qed.

Lemma single_valid : valid_input single_V single_A.
Proof. unfold valid_input, same_shape, rectangular. solve_matrix. Qed.

Lemma doc_build : build_edges_items doc_V doc_A = Ok (doc_edges, doc_items).
Proof. vm_compute. reflexivity. Qed.

Lemma swap_build :
  build_edges_items swap_V swap_A = Ok (swap_edges, swap_items).
Proof. vm_compute. reflexivity. Qed.

(** On two players a simple negative cycle is one of two. *)
Lemma doc_cycles (c : list nat) :
  negative_cycle doc_edges c -> simple c ->
  c = [0; 1; 0]%nat \/ c = [1; 0; 1]%nat.
Proof.
  intros Hneg Hs.
  pose proof (proj2 (in_simple_negative_cycles doc_edges c) (conj Hneg Hs))
    as Hin.
  vm_compute in Hin. destruct Hin as [<-|[<-|[]]]; auto.
Qed.

Lemma swap_cycles (c : list nat) :
  negative_cycle swap_edges c -> simple c ->
  c = [0; 1; 0]%nat \/ c = [1; 0; 1]%nat.
Proof.
  intros Hneg Hs.
  pose proof (proj2 (in_simple_negative_cycles swap_edges c) (conj Hneg Hs))
    as Hin.
  vm_compute in Hin. destruct Hin as [<-|[<-|[]]]; auto.
Qed.

Section Improvement.

Variable find_negative_cycle : DiGraph -> nat -> result (list nat).

(** What the library promises of [find_negative_cycle]: what it returns is
    a simple cycle of negative weight, and it returns one whenever such a
    cycle can be reached from the source. *)
Hypothesis find_negative_cycle_sound :
  forall G s c,
    find_negative_cycle G s = Ok c -> negative_cycle G c /\ simple c.
Hypothesis find_negative_cycle_complete :
  forall G s t c,
    negative_cycle G c -> head c = Some t -> reachable G s t ->
    exists c', find_negative_cycle G s = Ok c'.

(** C2, on the input of the function's first doctest.  Whatever simple
    negative cycle the library returns, player 0 is on it and ends with a
    strictly smaller utility than on entry (54 before; 53.9633... along
    [0, 1, 0], the documented output). *)
Theorem improvement_lowers_utility_of_player_0 (A' : matrix) :
  check_and_improve_pareto_effiecient find_negative_cycle doc_V doc_A
  = (Ok RetAllocations, A') ->
  exists source cycle,
    find_negative_cycle (add_weighted_edges_from [] doc_edges) source
    = Ok cycle /\
    0%nat ∈ cycle /\
    utility doc_V A' 0 < utility doc_V doc_A 0.
Proof using find_negative_cycle_sound.
  intros H. apply check_and_improve_RetAllocations in H
    as (edges & d & e0 & cycle & eps' & Hbuild & _ & Hc & Hloop).
  rewrite doc_build in Hbuild. injection Hbuild as <- <-.
  exists e0.1.1, cycle. split; [exact Hc|].
  apply find_negative_cycle_sound in Hc as [Hneg Hs].
  rewrite (build_edges_items_graph _ _ _ _ doc_build) in Hneg.
  destruct (doc_cycles cycle Hneg Hs) as [-> | ->];
    vm_compute in Hloop; injection Hloop as _ <-;
    (split; [apply list_elem_of_In; simpl; auto | reflexivity]).
Qed.

(** C9.  There is an input within the documented contract (positive
    valuations, shares in [0, 1], every item fully distributed) on which
    [check_and_improve_pareto_effiecient] returns a matrix with an entry
    below 0 or above 1: the amount moved is not bounded by the share
    held. *)
Theorem improvement_can_leave_unit_interval :
  exists V A A',
    valid_input V A /\
    (forall k, (k < num_items V)%nat -> colsum A k == 1) /\
    check_and_improve_pareto_effiecient find_negative_cycle V A
    = (Ok RetAllocations, A') /\
    exists i k, entry A' i k < 0 \/ 1 < entry A' i k.
Proof using find_negative_cycle_sound find_negative_cycle_complete.
  exists swap_V, swap_A.
  assert (add_weighted_edges_from [] swap_edges = swap_edges) as HG
    by exact (build_edges_items_graph _ _ _ _ swap_build).
  assert (negative_cycle swap_edges [0; 1; 0]%nat) as Hneg
    by (apply is_negative_cycle_true; vm_compute; reflexivity).
  assert (reachable swap_edges 0 0) as Hreach.
  { exists [0%nat]. repeat split. exists ln_zero. reflexivity. }
  destruct (find_negative_cycle_complete swap_edges 0%nat 0%nat _ Hneg
              eq_refl Hreach) as [c Hc].
  pose proof (find_negative_cycle_sound _ _ _ Hc) as [Hnegc Hs].
  assert (check_and_improve_pareto_effiecient find_negative_cycle
            swap_V swap_A =
          (_ ← foldM_M (adjust_step swap_V swap_items c)
                 (seq 0 (length c - 1)) (1 # 1000);
           ret_M RetAllocations) swap_A) as Hrun.
  { apply (check_and_improve_cycle _ _ _ swap_edges swap_items
             (0%nat, 1%nat, Ln (1 # 2000))).
    - exact swap_build.
    - reflexivity.
    - rewrite HG. exact Hc. }
  destruct (swap_cycles c Hnegc Hs) as [-> | ->].
  - eexists. split; [exact swap_valid|]. split; [|split].
    + intros k Hk. unfold num_items in Hk. simpl in Hk.
      destruct k as [|[|k]]; [reflexivity | reflexivity | lia].
    + rewrite Hrun. vm_compute. reflexivity.
    + exists 0%nat, 0%nat. left. reflexivity.
  - eexists. split; [exact swap_valid|]. split; [|split].
    + intros k Hk. unfold num_items in Hk. simpl in Hk.
      destruct k as [|[|k]]; [reflexivity | reflexivity | lia].
    + rewrite Hrun. vm_compute. reflexivity.
    + exists 0%nat, 1%nat. right. reflexivity.
Qed.

End Improvement.

(** ** C4: an efficient allocation on which the improver raises *)

(** C4, on a valid single-player input.  [is_pareto_efficient] answers
    [True] (the library reports no cycle in a graph without edges), yet
    [check_and_improve_pareto_effiecient] does not return [True]: reading
    [edges[0][0]] raises [IndexError]. *)
Theorem efficient_input_makes_improver_raise
  (negative_edge_cycle : DiGraph -> bool)
  (find_negative_cycle : DiGraph -> nat -> result (list nat)) :
  negative_edge_cycle [] = false ->
  valid_input single_V single_A /\
  is_pareto_efficient negative_edge_cycle single_V single_A = Ok true /\
  check_and_improve_pareto_effiecient find_negative_cycle single_V single_A
  = (Raise IndexError, single_A).
Proof.
  intros Hnec. split; [exact single_valid|]. split.
  - apply is_pareto_efficient_no_edges; [exact Hnec | reflexivity].
  - reflexivity.
Qed.

(** With more than one player the graph has edges and the outcome rests on
    the exception the library raises.  The reference detector signals
    absence as the library documents it, with [NetworkXError]; line 91
    catches [NetworkXNoCycle], so the exception reaches the caller. *)
Example efficient_two_players :
  is_pareto_efficient Nx.negative_edge_cycle fit_V fit_A = Ok true /\
  check_and_improve_pareto_effiecient Nx.find_negative_cycle fit_V fit_A
  = (Raise NetworkXError, fit_A).
Proof. split; vm_compute; reflexivity. Qed.

(** ** C7 as stated fails: a negative pair is not rejected *)


(** ** The theorems at concrete inputs *)


Lemma improvement_lowers_utility_of_player_0_witness :
  check_and_improve_pareto_effiecient Nx.find_negative_cycle doc_V doc_A
  = (Ok RetAllocations, doc_A') /\
  exists source cycle,
    Nx.find_negative_cycle (add_weighted_edges_from [] doc_edges) source
    = Ok cycle /\
    0%nat ∈ cycle /\
    utility doc_V doc_A' 0 < utility doc_V doc_A 0.
Proof.
  split; [vm_compute; reflexivity|].
  apply (improvement_lowers_utility_of_player_0 Nx.find_negative_cycle
           Nx_find_negative_cycle_sound doc_A').
  vm_compute. reflexivity.
Defined.


Lemma efficient_input_makes_improver_raise_witness :
  Nx.negative_edge_cycle [] = false /\
  valid_input single_V single_A /\
  is_pareto_efficient Nx.negative_edge_cycle single_V single_A = Ok true /\
  check_and_improve_pareto_effiecient Nx.find_negative_cycle
    single_V single_A = (Raise IndexError, single_A).
Proof.
  split; [reflexivity|].
  apply (efficient_input_makes_improver_raise Nx.negative_edge_cycle
           Nx.find_negative_cycle).
  reflexivity.
Defined.

Lemma check_and_improve_no_edges_raises_witness :
  Nx.negative_edge_cycle [] = false /\
  build_edges_items idle_V idle_A = Ok ([], ∅) /\
  is_pareto_efficient Nx.negative_edge_cycle idle_V idle_A = Ok true /\
  check_and_improve_pareto_effiecient Nx.find_negative_cycle idle_V idle_A
  = (Raise IndexError, idle_A).
Proof.
  split; [reflexivity|]. split; [vm_compute; reflexivity|].
  apply (check_and_improve_no_edges_raises Nx.negative_edge_cycle
           Nx.find_negative_cycle idle_V idle_A ∅).
  - reflexivity.
  - vm_compute. reflexivity.
Defined.

Lemma check_and_improve_frame_witness :
  check_and_improve_pareto_effiecient Nx.find_negative_cycle doc_V doc_A
  = (Ok RetAllocations, doc_A') /\
  exists edges item_dict source cycle,
    build_edges_items doc_V doc_A = Ok (edges, item_dict) /\
    Nx.find_negative_cycle (add_weighted_edges_from [] edges) source
    = Ok cycle /\
    forall i k,
      ~ touched item_dict cycle i k ->
      getitem2 doc_A' i k = getitem2 doc_A i k.
Proof.
  split; [vm_compute; reflexivity|].
  apply (check_and_improve_frame Nx.find_negative_cycle doc_V doc_A doc_A').
  vm_compute. reflexivity.
Defined.



Lemma improvement_can_leave_unit_interval_witness :
  exists V A A',
    valid_input V A /\
    (forall k, (k < num_items V)%nat -> colsum A k == 1) /\
    check_and_improve_pareto_effiecient Nx.find_negative_cycle V A
    = (Ok RetAllocations, A') /\
    exists i k, entry A' i k < 0 \/ 1 < entry A' i k.
Proof.
  apply (improvement_can_leave_unit_interval Nx.find_negative_cycle
           Nx_find_negative_cycle_sound Nx_find_negative_cycle_complete).
Defined.

Lemma is_pareto_efficient_zero_pattern_witness :
  same_pattern doc_A doc_A_other /\
  is_pareto_efficient Nx.negative_edge_cycle doc_V doc_A =
  is_pareto_efficient Nx.negative_edge_cycle doc_V doc_A_other.
Proof.
  assert (same_pattern doc_A doc_A_other) as Hsame.
  { unfold same_pattern, doc_A, doc_A_other.
    repeat (constructor;
            try (split; intros H; (reflexivity || discriminate H))). }
  split; [exact Hsame|].
  apply (is_pareto_efficient_zero_pattern Nx.negative_edge_cycle
           doc_V doc_A doc_A_other Hsame).
Defined.

(** * Further properties of the exchange graph and of the improver *)

(** ** The shape of the graph *)



(** X1.  The edge list of lines 73-82 holds at most one edge for an ordered
    pair of players, no edge from a player to itself, and only players of
    the valuation matrix; every weight is the logarithm of a positive
    ratio; the keys of [item_dict] are exactly the pairs that have an edge.
    Adding the edges to an empty [DiGraph] therefore overwrites nothing. *)
Theorem exchange_graph_shape (V A : matrix) (edges : list edge)
  (item_dict : gmap (nat * nat) nat) :
  build_edges_items V A = Ok (edges, item_dict) ->
  NoDup (edges.*1) /\
  add_weighted_edges_from [] edges = edges /\
  (forall i j w,
      (i, j, w) ∈ edges ->
      i <> j /\ (i < num_players V)%nat /\ (j < num_players V)%nat /\
      0 < arg w) /\
  (forall i j,
      is_Some (item_dict !! (i, j)) <-> exists w, (i, j, w) ∈ edges).
Proof.
  intros Hbuild.
  pose proof (build_edges_items_inv _ _ _ _ Hbuild) as (Hedges & Hdict & Hnd).
  simpl in Hedges, Hdict, Hnd.
  split; [exact Hnd|].
  split; [exact (build_edges_items_graph _ _ _ _ Hbuild)|]. split.
  - intros i j w Hin. apply Hedges in Hin as ([Hi Hj] & item & Hpair).
    apply pair_edge_Some in Hpair as (Hne & _ & _ & Hw & _).
    repeat split; try assumption. eapply log_ratio_positive, Hw.
  - intros i j. split.
    + intros [item Hitem]. apply Hdict in Hitem as (Hdone & w & Hpair).
      exists w. apply Hedges. eauto.
    + intros [w Hin]. apply Hedges in Hin as (Hdone & item & Hpair).
      exists item. apply Hdict. eauto.
Qed.



(** ** The adjustment loop raises nothing on a cycle of the graph *)







Section Outcomes.

Variable negative_edge_cycle : DiGraph -> bool.
Variable find_negative_cycle : DiGraph -> nat -> result (list nat).

Hypothesis negative_edge_cycle_spec :
  forall G, negative_edge_cycle G = true <-> exists c, negative_cycle G c.
Hypothesis find_negative_cycle_sound :
  forall G s c,
    find_negative_cycle G s = Ok c -> negative_cycle G c /\ simple c.




End Outcomes.

(** ** Allocations that are always efficient *)


Section Efficient.

Variable negative_edge_cycle : DiGraph -> bool.
Hypothesis negative_edge_cycle_spec :
  forall G, negative_edge_cycle G = true <-> exists c, negative_cycle G c.


(** X6.  When all players value every item alike, no exchange can help:
    on a valid input whose valuation rows are equal,
    [is_pareto_efficient] returns [True] for every allocation. *)
Theorem equal_valuations_are_efficient (V A : matrix) :
  valid_input V A ->
  (forall i j k,
      (i < num_players V)%nat -> (j < num_players V)%nat ->
      (k < num_items V)%nat -> entry V i k == entry V j k) ->
  is_pareto_efficient negative_edge_cycle V A = Ok true.
Proof using negative_edge_cycle_spec.
  intros Hvalid Hequal.
  destruct (build_edges_items_total V A Hvalid) as (edges & d & Hbuild).
  unfold is_pareto_efficient. rewrite build_edges_proj, Hbuild. simpl.
  rewrite (build_edges_items_graph _ _ _ _ Hbuild).
  assert (negative_edge_cycle edges = false) as ->; [|reflexivity].
  apply not_true_iff_false. rewrite negative_edge_cycle_spec.
  intros (c & _ & w & Hw & Hneg).
  pose proof (build_edges_items_inv _ _ _ _ Hbuild) as (Hedges & _ & _).
  simpl in Hedges.
  assert (forall i j wij, edge_weight edges i j = Some wij -> arg wij == 1)
    as Hone.
  { intros i j wij Hij.
    apply edge_weight_elem, Hedges in Hij as ([Hi Hj] & item & Hpair).
    apply pair_edge_Some in Hpair as (_ & Hlt & _ & Hlog & _).
    apply log_ratio_Ok in Hlog as (vi & vj & Hvi & Hvj & Hnz & _ & ->).
    simpl. apply getitem2_entry in Hvi, Hvj. subst vi vj.
    rewrite (Hequal i j item Hi Hj Hlt). field. exact Hnz. }
  assert (forall c w, walk_weight edges c = Some w -> arg w == 1) as Hwalk.
  { clear c w Hw Hneg. intros c. induction c as [|a c IH]; intros w Hw.
    - injection Hw as <-. reflexivity.
    - destruct c as [|b c]; [injection Hw as <-; reflexivity|].
      rewrite walk_weight_cons in Hw.
      destruct (edge_weight edges a b) as [wa|] eqn:Ha;
        cbn [mbind option_bind] in Hw; [|discriminate].
      destruct (walk_weight edges (b :: c)) as [s|] eqn:Hs;
        cbn [mbind option_bind] in Hw; [|discriminate].
      injection Hw as <-. simpl.
      rewrite (Hone a b wa Ha), (IH s eq_refl). reflexivity. }
  apply ln_negb_true in Hneg. rewrite (Hwalk c w Hw) in Hneg.
  discriminate Hneg.
Qed.

End Efficient.

(** ** Allocations of another shape *)








Lemma filterM_result_ext_in {X : Type} (p p' : X -> result bool)
  (l : list X) :
  (forall x, In x l -> p x = p' x) ->
  filterM_result p l = filterM_result p' l.
Proof.
  induction l as [|x l IH]; intros H; simpl; [reflexivity|].
  rewrite H by (left; reflexivity).
  rewrite IH; [reflexivity|]. intros y Hy. apply H. right. exact Hy.
Qed.

(** X8.  Only the block of the allocations that has the shape of the
    valuations is read: rows and columns beyond it are ignored, so two
    allocation lists that read alike on that block give
    [is_pareto_efficient] the same outcome. *)
Theorem is_pareto_efficient_reads_block
  (negative_edge_cycle : DiGraph -> bool) (V A1 A2 : matrix) :
  (forall i k, (i < num_players V)%nat -> (k < num_items V)%nat ->
               getitem2 A1 i k = getitem2 A2 i k) ->
  is_pareto_efficient negative_edge_cycle V A1 =
  is_pareto_efficient negative_edge_cycle V A2.
Proof.
  intros Hblock. unfold is_pareto_efficient.
  assert (build_edges V A1 = build_edges V A2) as ->; [|reflexivity].
  unfold build_edges.
  destruct (getitem V 0) as [row0|e] eqn:Hrow; [|reflexivity]. simpl.
  rewrite <- (getitem_0_num_items V row0 Hrow).
  unfold for_range. apply foldM_result_ext. intros i edges Hi.
  apply foldM_result_ext. intros j edges' _.
  assert (held_items A1 (num_items V) i = held_items A2 (num_items V) i)
    as ->; [|reflexivity].
  unfold held_items. apply filterM_result_ext_in. intros k Hk.
  apply in_seq in Hi, Hk. rewrite Hblock by (unfold num_players; lia).
  reflexivity.
Qed.

(** ** Rescaling a player's valuations *)





Section Rescaling.

Variable negative_edge_cycle : DiGraph -> bool.
Hypothesis negative_edge_cycle_spec :
  forall G, negative_edge_cycle G = true <-> exists c, negative_cycle G c.


End Rescaling.

(** * The Fibonacci algorithms of [main.py] *)

Section FibonacciFacts.

Import Fibonacci.
Local Open Scope Z_scope.

Lemma fib_step (n : nat) : fib (S (S n)) = fib (S n) + fib n.
Proof. reflexivity. Qed.

Lemma fib_int_of_nat (n : nat) : fib_int (Z.of_nat n) = fib n.
Proof.
  unfold fib_int. destruct (Z.ltb_spec (Z.of_nat n) 2) as [H|H].
  - destruct n as [|[|n]]; [reflexivity | reflexivity | lia].
  - rewrite Nat2Z.id. reflexivity.
Qed.

Lemma fib_int_step (number : Z) :
  2 <= number -> fib_int number = fib_int (number - 1) + fib_int (number - 2).
Proof.
  intros H. rewrite <- (Z2Nat.id number) by lia.
  destruct (Z.to_nat number) as [|[|n]] eqn:E; [lia | lia |].
  replace (Z.of_nat (S (S n)) - 1) with (Z.of_nat (S n)) by lia.
  replace (Z.of_nat (S (S n)) - 2) with (Z.of_nat n) by lia.
  rewrite !fib_int_of_nat. apply fib_step.
Qed.

Lemma length_range (a b : Z) : length (range a b) = Z.to_nat (b - a).
Proof. unfold range. rewrite length_map, length_seq. reflexivity. Qed.

Lemma getitem_back_Ok (l : list Z) (k : nat) (x : Z) :
  (1 <= k <= length l)%nat -> l !! (length l - k)%nat = Some x ->
  getitem_back l k = Ok x.
Proof.
  intros [H1 H2] H. unfold getitem_back.
  rewrite (proj2 (Nat.leb_le _ _) H1), (proj2 (Nat.leb_le _ _) H2).
  apply getitem_Ok, H.
Qed.

Lemma getitem_back_snoc (l : list Z) (x : Z) :
  getitem_back (l ++ [x]) 1 = Ok x.
Proof.
  apply getitem_back_Ok; rewrite length_app; simpl; [lia|].
  rewrite lookup_app_r by lia.
  replace (length l + 1 - 1 - length l)%nat with 0%nat by lia. reflexivity.
Qed.

Lemma getitem_back_snoc2 (l : list Z) (x y : Z) :
  getitem_back (l ++ [x; y]) 2 = Ok x.
Proof.
  apply getitem_back_Ok; rewrite length_app; simpl; [lia|].
  rewrite lookup_app_r by lia.
  replace (length l + 2 - 2 - length l)%nat with 0%nat by lia. reflexivity.
Qed.

Lemma fib_prefix_snoc (m : nat) :
  map fib (seq 0 (S (S m))) = map fib (seq 0 m) ++ [fib m; fib (S m)].
Proof.
  rewrite !seq_S, !map_app, <- app_assoc. reflexivity.
Qed.

Lemma iterative_loop (l : list Z) (m : nat) :
  foldM_result
    (fun (i : Z) fib_seq =>
       a ← getitem_back fib_seq 1;
       b ← getitem_back fib_seq 2;
       Ok (fib_seq ++ [a + b]))
    l (map fib (seq 0 (S (S m))))
  = Ok (map fib (seq 0 (S (S m) + length l))).
Proof.
  revert m. induction l as [|i l IH]; intros m.
  - simpl length. rewrite Nat.add_0_r. reflexivity.
  - cbn [foldM_result].
    assert (getitem_back (map fib (seq 0 (S (S m)))) 1 = Ok (fib (S m))) as ->.
    { rewrite seq_S, map_app. apply getitem_back_snoc. }
    assert (getitem_back (map fib (seq 0 (S (S m)))) 2 = Ok (fib m)) as ->.
    { rewrite fib_prefix_snoc. apply getitem_back_snoc2. }
    cbn [mbind result_bind].
    replace (map fib (seq 0 (S (S m))) ++ [fib (S m) + fib m])
      with (map fib (seq 0 (S (S (S m)))))
      by (rewrite (seq_S (S (S m))), map_app; reflexivity).
    rewrite IH. do 3 f_equal. simpl. lia.
Qed.

(** X10.  [IterativeFibonacci.compute(number)] returns the Fibonacci numbers
    [F(0), ..., F(number)] for every [number >= 0], and raises nothing.  A
    negative [number] is not rejected: the answer is [[0, 1]], as for 1. *)
Theorem iterative_compute_fib (number : Z) :
  iterative_compute number =
  Ok (if number <? 0 then [0; 1]
      else map fib (seq 0 (S (Z.to_nat number)))).
Proof.
  unfold iterative_compute.
  destruct (Z.eqb_spec number 0) as [->|H0]; [reflexivity|].
  destruct (Z.eqb_spec number 1) as [->|H1]; [reflexivity|].
  change [0; 1] with (map fib (seq 0 2)) at 1.
  rewrite (iterative_loop _ 0), length_range.
  destruct (Z.ltb_spec number 0) as [Hneg|Hpos].
  - replace (Z.to_nat (number + 1 - 2)) with 0%nat by lia. reflexivity.
  - do 3 f_equal. lia.
Qed.

Lemma insert_known_subseteq (cache : gmap (nat * Z) Z) (key : nat * Z)
  (x : Z) :
  (forall y, cache !! key = Some y -> y = x) ->
  cache ⊆ <[key := x]> cache.
Proof.
  intros H. destruct (cache !! key) as [y|] eqn:E.
  - rewrite (H y eq_refl) in E. rewrite insert_id by exact E. reflexivity.
  - apply insert_subseteq, E.
Qed.

Lemma cache_sound_insert (cache : gmap (nat * Z) Z) (self : nat)
  (number : Z) :
  cache_sound cache ->
  cache_sound (<[(self, number) := fib_int number]> cache).
Proof.
  intros Hs s k r. destruct (decide ((self, number) = (s, k))) as [[= <- <-]|Hne].
  - rewrite lookup_insert_eq. congruence.
  - rewrite lookup_insert_ne by exact Hne. apply Hs.
Qed.

(** X11.  [RecursiveFibonacci.compute] with its memo.  When every value
    already in the cache is right and the depth of nested calls allowed is
    at least [number] (and at least one), the call returns [number] itself
    below 2 and the Fibonacci number otherwise; the cache only grows, stays
    right, and now holds the result for these arguments. *)
Theorem recursive_compute_fib (depth self : nat) (number : Z)
  (cache : gmap (nat * Z) Z) :
  cache_sound cache ->
  (1 <= depth)%nat -> number <= Z.of_nat depth ->
  exists cache',
    recursive_compute depth self number cache
    = (Done (fib_int number), cache') /\
    cache_sound cache' /\ cache ⊆ cache' /\
    cache' !! (self, number) = Some (fib_int number).
Proof.
  revert number cache.
  induction depth as [|depth IH]; intros number cache Hs Hd Hn; [lia|].
  cbn [recursive_compute].
  destruct (cache !! (self, number)) as [r|] eqn:Hhit.
  - pose proof (Hs _ _ _ Hhit) as ->. exists cache.
    repeat split; [exact Hs | reflexivity | exact Hhit].
  - destruct (Z.ltb_spec number 2) as [Hlt|Hge].
    + exists (<[(self, number) := number]> cache).
      assert (fib_int number = number) as E
        by (unfold fib_int; apply Z.ltb_lt in Hlt; rewrite Hlt; reflexivity).
      rewrite E. split; [reflexivity|]. split; [|split].
      * rewrite <- E at 2. apply cache_sound_insert, Hs.
      * apply insert_subseteq, Hhit.
      * apply lookup_insert_eq.
    + destruct (IH (number - 1) cache Hs) as (c1 & H1 & Hs1 & Hsub1 & _);
        [lia | lia |].
      destruct (IH (number - 2) c1 Hs1) as (c2 & H2 & Hs2 & Hsub2 & _);
        [lia | lia |].
      rewrite H1, H2, <- (fib_int_step number Hge).
      exists (<[(self, number) := fib_int number]> c2).
      split; [reflexivity|]. split; [|split].
      * apply cache_sound_insert, Hs2.
      * etransitivity; [exact Hsub1|]. etransitivity; [exact Hsub2|].
        apply insert_known_subseteq. intros y Hy. apply (Hs2 _ _ _ Hy).
      * apply lookup_insert_eq.
Qed.

(** X12.  On an empty cache the depth needed is exactly the number asked
    for: the call answers when the depth allowed is at least [number] and at
    least one, and otherwise ends in [RecursionError]. *)
Theorem recursive_compute_cold_depth (depth self : nat) (number : Z) :
  (exists r cache', recursive_compute depth self number ∅ = (Done r, cache'))
  <-> (1 <= depth)%nat /\ number <= Z.of_nat depth.
Proof.
  split.
  - intros (r & c & H).
    assert (forall d n, Z.of_nat d < n ->
                        recursive_compute d self n ∅ = (RecursionError, ∅))
      as Hdeep.
    { clear. induction d as [|d IH]; intros n Hn; [reflexivity|].
      cbn [recursive_compute]. rewrite lookup_empty.
      destruct (Z.ltb_spec n 2) as [Hlt|Hge]; [lia|].
      rewrite (IH (n - 1)) by lia. reflexivity. }
    destruct depth as [|depth]; [discriminate|]. split; [lia|].
    destruct (Z.le_gt_cases number (Z.of_nat (S depth))) as [Hle|Hgt];
      [exact Hle|].
    rewrite (Hdeep (S depth) number Hgt) in H. discriminate.
  - intros [Hd Hn].
    destruct (recursive_compute_fib depth self number ∅) as (c & H & _);
      [intros s k r Hr; rewrite lookup_empty in Hr; discriminate
      | exact Hd | exact Hn |].
    eauto.
Qed.

Lemma recursive_each_warm (self : nat) (k m : nat)
  (cache : gmap (nat * Z) Z) :
  cache_sound cache ->
  (forall j, (j < m)%nat -> cache !! (self, Z.of_nat j) = Some (fib j)) ->
  exists cache',
    recursive_each 2 self (map (fun i => 0 + Z.of_nat i) (seq m k)) cache
    = (Done (map fib (seq m k)), cache') /\
    cache_sound cache'.
Proof.
  revert m cache. induction k as [|k IH]; intros m cache Hs Hwarm.
  - exists cache. auto.
  - cbn [seq map recursive_each]. rewrite Z.add_0_l.
    assert (exists c1,
               recursive_compute 2 self (Z.of_nat m) cache = (Done (fib m), c1) /\
               cache_sound c1 /\
               forall j, (j < S m)%nat ->
                         c1 !! (self, Z.of_nat j) = Some (fib j))
      as (c1 & H1 & Hs1 & Hwarm1).
    { cbn [recursive_compute].
      destruct (cache !! (self, Z.of_nat m)) as [r|] eqn:Hhit.
      - pose proof (Hs _ _ _ Hhit) as ->. rewrite fib_int_of_nat in *.
        exists cache. split; [reflexivity|]. split; [exact Hs|].
        intros j Hj. destruct (decide (j = m)) as [->|]; [exact Hhit|].
        apply Hwarm. lia.
      - assert (forall c r,
                   cache_sound c ->
                   (forall j, (j < m)%nat -> c !! (self, Z.of_nat j) = Some (fib j)) ->
                   r = fib m ->
                   cache_sound (<[(self, Z.of_nat m) := r]> c) /\
                   forall j, (j < S m)%nat ->
                     <[(self, Z.of_nat m) := r]> c !! (self, Z.of_nat j)
                     = Some (fib j)) as Hins.
        { intros c r Hc Hw ->. split.
          - rewrite <- fib_int_of_nat. apply cache_sound_insert, Hc.
          - intros j Hj. destruct (decide (j = m)) as [->|Hne].
            + apply lookup_insert_eq.
            + rewrite lookup_insert_ne by (intros [= E]; lia).
              apply Hw. lia. }
        destruct (Z.ltb_spec (Z.of_nat m) 2) as [Hlt|Hge].
        + exists (<[(self, Z.of_nat m) := Z.of_nat m]> cache).
          assert (Z.of_nat m = fib m) as E
            by (destruct m as [|[|m]]; [reflexivity | reflexivity | lia]).
          rewrite <- E at 1. split; [reflexivity|].
          apply Hins; assumption.
        + replace (Z.of_nat m - 1) with (Z.of_nat (m - 1)) by lia.
          rewrite (Hwarm (m - 1)%nat) by lia.
          replace (Z.of_nat m - 2) with (Z.of_nat (m - 2)) by lia.
          rewrite (Hwarm (m - 2)%nat) by lia.
          exists (<[(self, Z.of_nat m) := fib (m - 1) + fib (m - 2)]> cache).
          assert (fib (m - 1) + fib (m - 2) = fib m) as E.
          { destruct m as [|[|m]]; [lia | lia |].
            replace (S (S m) - 1)%nat with (S m) by lia.
            replace (S (S m) - 2)%nat with m by lia. reflexivity. }
          rewrite E. split; [reflexivity|]. apply Hins; auto. }
    rewrite H1.
    destruct (IH (S m) c1 Hs1 Hwarm1) as (c2 & H2 & Hs2).
    rewrite H2. exists c2. auto.
Qed.

(** X13.  The two algorithms agree, and the way [main] uses the recursive
    one keeps the recursion shallow: asking for [compute(0)], ...,
    [compute(number)] in this order needs two nested calls at most,
    whatever [number] is and whatever right values the cache already holds,
    and yields the list [IterativeFibonacci.compute(number)] returns. *)
Theorem recursive_sequence_agrees (self : nat) (number : Z)
  (cache : gmap (nat * Z) Z) :
  0 <= number -> cache_sound cache ->
  exists l cache',
    recursive_sequence 2 self number cache = (Done l, cache') /\
    iterative_compute number = Ok l /\
    cache_sound cache'.
Proof.
  intros Hn Hs. unfold recursive_sequence, range.
  destruct (recursive_each_warm self (Z.to_nat (number + 1 - 0)) 0 cache Hs)
    as (c & H & Hs'); [intros j Hj; lia|].
  exists (map fib (seq 0 (Z.to_nat (number + 1 - 0)))), c.
  split; [exact H|]. split; [|exact Hs'].
  rewrite iterative_compute_fib.
  replace (number <? 0) with false by (symmetry; apply Z.ltb_ge; lia).
  do 3 f_equal. lia.
Qed.

(** X14.  The flyweight hands out one object per algorithm type: once
    [get_fibonacci] has returned an object for a type, it returns that same
    object for that type ever after, whatever type is asked for in between,
    and creates nothing new for it. *)
Theorem get_fibonacci_shares (t t' : string) (fw fw1 fw2 : flyweight)
  (o : object) (r : result object) :
  get_fibonacci t fw = (Ok o, fw1) ->
  get_fibonacci t' fw1 = (r, fw2) ->
  get_fibonacci t fw2 = (Ok o, fw2).
Proof.
  intros H1 H2.
  assert (forall s f f' p,
             get_fibonacci s f = (Ok p, f') -> shared_data f' !! s = Some p)
    as Hstored.
  { intros s f f' p H. unfold get_fibonacci in H.
    destruct (shared_data f !! s) as [q|] eqn:E.
    - rewrite E in H. injection H as <- <-. exact E.
    - destruct (String.eqb s "iterative"); simpl in H.
      + rewrite lookup_insert_eq in H. injection H as <- <-. simpl.
        apply lookup_insert_eq.
      + destruct (String.eqb s "recursive"); simpl in H.
        * rewrite lookup_insert_eq in H. injection H as <- <-. simpl.
          apply lookup_insert_eq.
        * rewrite E in H. discriminate. }
  assert (forall s f p,
             shared_data f !! s = Some p -> get_fibonacci s f = (Ok p, f))
    as Hhit.
  { intros s f p E. unfold get_fibonacci. rewrite E. simpl. rewrite E.
    reflexivity. }
  apply Hhit. pose proof (Hstored _ _ _ _ H1) as E1.
  unfold get_fibonacci in H2.
  destruct (shared_data fw1 !! t') as [q|] eqn:E'.
  - rewrite E' in H2. injection H2 as _ <-. exact E1.
  - assert (t' <> t) as Hne by congruence.
    destruct (String.eqb t' "iterative"); simpl in H2.
    + rewrite lookup_insert_eq in H2. injection H2 as _ <-. simpl.
      rewrite lookup_insert_ne by exact Hne. exact E1.
    + destruct (String.eqb t' "recursive"); simpl in H2.
      * rewrite lookup_insert_eq in H2. injection H2 as _ <-. simpl.
        rewrite lookup_insert_ne by exact Hne. exact E1.
      * rewrite E' in H2. injection H2 as _ <-. exact E1.
Qed.

End FibonacciFacts.

(** ** The further properties at concrete inputs *)

Lemma exchange_graph_shape_witness :
  build_edges_items doc_V doc_A = Ok (doc_edges, doc_items) /\
  NoDup (doc_edges.*1) /\
  add_weighted_edges_from [] doc_edges = doc_edges /\
  (forall i j w,
      (i, j, w) ∈ doc_edges ->
      i <> j /\ (i < num_players doc_V)%nat /\ (j < num_players doc_V)%nat /\
      0 < arg w) /\
  (forall i j,
      is_Some (doc_items !! (i, j)) <-> exists w, (i, j, w) ∈ doc_edges).
Proof.
  split; [vm_compute; reflexivity|].
  apply (exchange_graph_shape doc_V doc_A doc_edges doc_items).
  vm_compute. reflexivity.
Defined.





Lemma equal_valuations_are_efficient_witness :
  valid_input equal_V swap_A /\
  (forall i j k,
      (i < num_players equal_V)%nat -> (j < num_players equal_V)%nat ->
      (k < num_items equal_V)%nat -> entry equal_V i k == entry equal_V j k) /\
  is_pareto_efficient Nx.negative_edge_cycle equal_V swap_A = Ok true.
Proof.
  assert (valid_input equal_V swap_A) as Hvalid
    by (unfold valid_input, same_shape, rectangular; solve_matrix).
  assert (forall i j k,
             (i < num_players equal_V)%nat -> (j < num_players equal_V)%nat ->
             (k < num_items equal_V)%nat ->
             entry equal_V i k == entry equal_V j k) as Hequal.
  { unfold num_players, num_items. simpl. intros i j k Hi Hj Hk.
    destruct i as [|[|i]]; [| |lia]; destruct j as [|[|j]]; try lia;
      destruct k as [|[|k]]; try lia; reflexivity. }
  split; [exact Hvalid|]. split; [exact Hequal|].
  apply (equal_valuations_are_efficient Nx.negative_edge_cycle
           Nx_negative_edge_cycle_spec equal_V swap_A Hvalid Hequal).
Defined.


Lemma is_pareto_efficient_reads_block_witness :
  is_pareto_efficient Nx.negative_edge_cycle doc_V doc_A =
  is_pareto_efficient Nx.negative_edge_cycle doc_V wide_A.
Proof.
  apply (is_pareto_efficient_reads_block Nx.negative_edge_cycle
           doc_V doc_A wide_A).
  unfold num_players, num_items. simpl. intros i k Hi Hk.
  destruct i as [|[|i]]; [| |lia];
    destruct k as [|[|[|[|k]]]]; try lia; reflexivity.
Defined.


Lemma recursive_compute_fib_witness :
  exists cache',
    Fibonacci.recursive_compute 7 0 7 ∅
    = (Fibonacci.Done (Fibonacci.fib_int 7), cache') /\
    Fibonacci.cache_sound cache' /\ ∅ ⊆ cache' /\
    cache' !! (0%nat, 7%Z) = Some (Fibonacci.fib_int 7).
Proof.
  apply (recursive_compute_fib 7 0 7 ∅).
  - intros s k r H. rewrite lookup_empty in H. discriminate.
  - lia.
  - lia.
Defined.

Lemma recursive_sequence_agrees_witness :
  exists l cache',
    Fibonacci.recursive_sequence 2 0 7 ∅ = (Fibonacci.Done l, cache') /\
    Fibonacci.iterative_compute 7 = Ok l /\
    Fibonacci.cache_sound cache'.
Proof.
  apply (recursive_sequence_agrees 0 7 ∅).
  - lia.
  - intros s k r H. rewrite lookup_empty in H. discriminate.
Defined.

Lemma get_fibonacci_shares_witness :
  Fibonacci.get_fibonacci "iterative"
    (Fibonacci.get_fibonacci "recursive"
       (Fibonacci.get_fibonacci "iterative" fresh_flyweight).2).2
  = (Ok (Fibonacci.IterativeFibonacci, 0%nat),
     (Fibonacci.get_fibonacci "recursive"
        (Fibonacci.get_fibonacci "iterative" fresh_flyweight).2).2).
Proof.
  apply (get_fibonacci_shares "iterative" "recursive" fresh_flyweight
           (Fibonacci.get_fibonacci "iterative" fresh_flyweight).2
           (Fibonacci.get_fibonacci "recursive"
              (Fibonacci.get_fibonacci "iterative" fresh_flyweight).2).2
           (Fibonacci.IterativeFibonacci, 0%nat)
           (Fibonacci.get_fibonacci "recursive"
              (Fibonacci.get_fibonacci "iterative" fresh_flyweight).2).1).
  - vm_compute. reflexivity.
  - vm_compute. reflexivity.
Defined.
